(** * Foucault pendulum: a shallow embedding of [main.go] and its properties

    Numbers.  The Go program computes with [float64]; this development
    computes with the real numbers [R] of the Standard Library, so every
    arithmetic operation is the exact operation that [float64] rounds.
    [math.Cos], [math.Sin], [math.Sqrt] and [math.Atan] are [cos], [sin],
    [sqrt] and [atan]; [math.Atan2] is written out below after Go's source.
    Go's [int] and [uint]/[uint64] are [Z] with their wrap-around written out.

    Randomness.  [math/rand] is the standard library of Go, not code of this
    repository: its generator is the abstract interface [Rand] below, a state
    threaded through every draw.

    Effects.  Audio, logging, telemetry and drawing are not modelled; the
    pointer/touch edges and the wall clock are the inputs of a tick. *)

From Stdlib Require Import Reals Lra Lia ZArith List Bool.
Import ListNotations.

Open Scope R_scope.

(** ** Constants (main.go, lines 29-40) *)

Definition screenWidth : R := 640.
Definition screenHeight : R := 480.
Definition circleX : R := screenWidth / 2.
Definition circleY : R := screenHeight / 2.
Definition circleVerticalScale : R := 7 / 10.
Definition pendulumLength : R := 955.
Definition pendulumAmplitude : R := 220.
Definition pendulumR : R := 10.
Definition gravity : R := 98 / 10 / 60.

(** ** Go's integer types *)

Definition wrapU64 (z : Z) : Z := Z.modulo z (2 ^ 64).

(** A value of 64 bits read as a signed [int]/[int64]. *)
Definition wrapI64 (z : Z) : Z :=
  let u := wrapU64 z in
  if Z.ltb u (2 ^ 63) then u else (u - 2 ^ 64)%Z.

(** ** math.Atan2, without NaN, infinities and signed zeros *)

Definition Atan2 (y x : R) : R :=
  if Req_EM_T y 0 then
    (if Rle_dec 0 x then 0 else PI)
  else if Req_EM_T x 0 then
    (if Rlt_dec 0 y then PI / 2 else - (PI / 2))
  else
    let q := atan (y / x) in
    if Rlt_dec x 0 then
      (if Rle_dec q 0 then q + PI else q - PI)
    else q.

(** [math.Pow(x, 2)], the only use of [math.Pow] in the program. *)
Definition Pow (x : R) (n : nat) : R := x ^ n.

(** ** PolarCoordinates (lines 63-78) *)

Module PolarCoordinates.
Record t := mk { r : R; theta : R }.
End PolarCoordinates.

Definition toScreen (p : PolarCoordinates.t) : R * R :=
  let x := PolarCoordinates.r p * cos (PolarCoordinates.theta p) in
  let y := PolarCoordinates.r p * sin (PolarCoordinates.theta p) in
  (x + circleX, y * circleVerticalScale + circleY).

(** [fromScreen] overwrites both fields of its receiver: it returns them. *)
Definition fromScreen (x y : R) : PolarCoordinates.t :=
  let x := x - circleX in
  let y := y - circleY in
  let y := y / circleVerticalScale in
  PolarCoordinates.mk (sqrt (x * x + y * y)) (Atan2 y x).

(** ** Mover (lines 80-90)

    [int(ticks)] reads the [uint] counter as a signed [int]; the
    subtraction is the wrapping one of [int]. *)

Module Mover.
Record t := mk { delay : Z; delta : R }.
End Mover.

Definition move (m : Mover.t) (ticks : Z) (pos : PolarCoordinates.t)
  : PolarCoordinates.t :=
  if Z.ltb 0 (wrapI64 (wrapI64 ticks - Mover.delay m)) then
    let '(x, y) := toScreen pos in fromScreen (x + Mover.delta m) y
  else pos.

(** ** Coin, CoinHitEffect, Enemy (lines 92-143)

    The Go structs hold their position and mover through pointers, but every
    spawned entity gets its own copy ([p := *pos] for the coins, the original
    [pos] for the single enemy, fresh [&Mover{...}] values, a fresh position
    for an effect), so no two entities share a cell and values model them. *)

Module Coin.
Record t := mk {
  ticks : Z;
  pos : PolarCoordinates.t;
  mover : Mover.t;
  r : R;
  hit : bool
}.
End Coin.

Module CoinHitEffect.
Record t := mk { ticks : Z; pos : PolarCoordinates.t; gain : Z }.
End CoinHitEffect.

Module Enemy.
Record t := mk {
  ticks : Z;
  pos : PolarCoordinates.t;
  mover : Mover.t;
  r : R
}.
End Enemy.

Inductive GameMode := GameModeTitle | GameModePlaying | GameModeGameOver.

(** ** The random generator of [math/rand]

    [newRand seed] is [rand.New(rand.NewSource(seed))]; the three methods the
    program calls draw from the state and return the next one. *)

Class Rand (S : Type) := {
  newRand : Z -> S;
  Int : S -> Z * S;
  Float64 : S -> R * S;
  NormFloat64 : S -> R * S
}.

(** One frame of input: the two touch edges of [touchutil] and the wall
    clock read by [time.Now().Unix()] when the game is reinitialized. *)
Record Input := mkInput { justTouched : bool; justReleased : bool; now : Z }.

(** A star of the generated sky image: x, y and radius. *)
Definition Star : Type := (R * R * R)%type.

(** What one spawn event of [Game.Update] (lines 275-311) decides. *)
Record SpawnEvent := mkSpawnEvent {
  evTicks : Z;
  evX : R;
  evY : R;
  evPos : PolarCoordinates.t;
  evDelta : R;
  evCoins : list Coin.t;
  evEnemy : Enemy.t
}.

Definition Rltb (a b : R) : bool := if Rlt_dec a b then true else false.
Definition Rleb (a b : R) : bool := if Rle_dec a b then true else false.

Section Game.
Context {S : Type} `{Rand S}.

(** ** Game (lines 193-211), without the identifiers, the touch context
    and the logging, which the update never reads back. *)

Record Game := mkGame {
  fixedRandomSeed : Z;
  random : S;
  mode : GameMode;
  ticksFromModeStart : Z;
  score : Z;
  hold : bool;
  pendulumX : R;
  pendulumVx : R;
  pendulumRotation : R;
  skyImg : list Star;
  coins : list Coin.t;
  coinHitEffects : list CoinHitEffect.t;
  enemies : list Enemy.t;
  lastPendulumTicks : Z
}.

(** ** Game.initialize (lines 563-603) *)

Definition skyImgLength : R := Rmax screenWidth screenHeight * (12 / 10).

Fixpoint drawSky (n : nat) (s : S) : list Star * S :=
  match n with
  | O => ([], s)
  | Datatypes.S n' =>
      let '(fx, s) := Float64 s in
      let '(fy, s) := Float64 s in
      let '(fr, s) := NormFloat64 s in
      let star := (skyImgLength * fx, skyImgLength * fy,
                   Rmax (1 + (5 / 10) * fr) (5 / 10)) in
      let '(rest, s) := drawSky n' s in
      (star :: rest, s)
  end.

(** The seed: the fixed one when it is set (non zero), the clock otherwise. *)
Definition seedOf (fixedSeed clock : Z) : Z :=
  if Z.eqb fixedSeed 0 then clock else fixedSeed.

(** [initialize] overwrites every modelled field but [fixedRandomSeed]. *)
Definition initialize (g : Game) (clock : Z) : Game :=
  let s := newRand (seedOf (fixedRandomSeed g) clock) in
  let '(sky, s) := drawSky 500 s in
  {| fixedRandomSeed := fixedRandomSeed g; random := s;
     mode := GameModeTitle; ticksFromModeStart := 0; score := 0;
     hold := false; pendulumX := 0; pendulumVx := 0; pendulumRotation := 0;
     skyImg := sky; coins := []; coinHitEffects := []; enemies := [];
     lastPendulumTicks := 0 |}.

(** [main]: a [Game] holding only the seed override, then [initialize]. *)
Definition start (s0 : S) (fixedSeed clock : Z) : Game :=
  initialize
    {| fixedRandomSeed := fixedSeed; random := s0;
       mode := GameModeTitle; ticksFromModeStart := 0; score := 0;
       hold := false; pendulumX := 0; pendulumVx := 0; pendulumRotation := 0;
       skyImg := []; coins := []; coinHitEffects := []; enemies := [];
       lastPendulumTicks := 0 |} clock.

(** ** Game.Update (lines 213-388), phase by phase *)

(** [g.ticksFromModeStart++] on a [uint64]. *)
Definition incTicks (g : Game) : Game :=
  {| fixedRandomSeed := fixedRandomSeed g; random := random g;
     mode := mode g; ticksFromModeStart := wrapU64 (ticksFromModeStart g + 1);
     score := score g; hold := hold g; pendulumX := pendulumX g;
     pendulumVx := pendulumVx g; pendulumRotation := pendulumRotation g;
     skyImg := skyImg g; coins := coins g; coinHitEffects := coinHitEffects g;
     enemies := enemies g; lastPendulumTicks := lastPendulumTicks g |}.

(** [setNextMode] (lines 558-561). *)
Definition setNextMode (g : Game) (m : GameMode) : Game :=
  {| fixedRandomSeed := fixedRandomSeed g; random := random g;
     mode := m; ticksFromModeStart := 0;
     score := score g; hold := hold g; pendulumX := pendulumX g;
     pendulumVx := pendulumVx g; pendulumRotation := pendulumRotation g;
     skyImg := skyImg g; coins := coins g; coinHitEffects := coinHitEffects g;
     enemies := enemies g; lastPendulumTicks := lastPendulumTicks g |}.

(** Title (lines 221-235). *)
Definition titleStep (g : Game) (i : Input) : Game :=
  if justTouched i then
    setNextMode
      {| fixedRandomSeed := fixedRandomSeed g; random := random g;
         mode := mode g; ticksFromModeStart := ticksFromModeStart g;
         score := score g; hold := hold g; pendulumX := pendulumAmplitude;
         pendulumVx := pendulumVx g; pendulumRotation := pendulumRotation g;
         skyImg := skyImg g; coins := coins g;
         coinHitEffects := coinHitEffects g; enemies := enemies g;
         lastPendulumTicks := lastPendulumTicks g |} GameModePlaying
  else g.

(** Game over (lines 380-384). *)
Definition gameOverStep (g : Game) (i : Input) : Game :=
  if Z.ltb 60 (ticksFromModeStart g) && justTouched i then initialize g (now i)
  else g.

(** Playing, lines 245-250: the hold flag. *)
Definition updateHold (i : Input) (h : bool) : bool :=
  let h := if justTouched i then true else h in
  if justReleased i then false else h.

(** Lines 252-257: the earth rotation. *)
Definition rotate (h : bool) (rot : R) : R :=
  if h then
    let rot := rot + PI / 800 in
    if Rltb (PI * 2) rot then rot - PI * 2 else rot
  else rot.

(** Lines 259-266: one Euler step, then the periodic reset; the result is
    [(pendulumX, pendulumVx, lastPendulumTicks)]. *)
Definition pendulumStep (t last : Z) (x vx : R) : R * R * Z :=
  let vx := vx + - gravity / pendulumLength * x in
  let x := x + vx in
  if Z.eqb (Z.modulo (wrapU64 (t - last)) 480) 0 then (pendulumAmplitude, 0, t)
  else (x, vx, last).

(** Lines 245-266 together. *)
Definition physicsPhase (g : Game) (i : Input) : Game :=
  let h := updateHold i (hold g) in
  let rot := rotate h (pendulumRotation g) in
  let '(x, vx, last) :=
    pendulumStep (ticksFromModeStart g) (lastPendulumTicks g)
      (pendulumX g) (pendulumVx g) in
  {| fixedRandomSeed := fixedRandomSeed g; random := random g;
     mode := mode g; ticksFromModeStart := ticksFromModeStart g;
     score := score g; hold := h; pendulumX := x;
     pendulumVx := vx; pendulumRotation := rot;
     skyImg := skyImg g; coins := coins g; coinHitEffects := coinHitEffects g;
     enemies := enemies g; lastPendulumTicks := last |}.

(** Lines 268-273. *)
Definition enemyAppearanceRate (t : Z) : Z :=
  if Z.ltb t 1800 then 180
  else if Z.ltb t 2400 then 120
  else if Z.ltb t 3000 then 100
  else if Z.ltb t 3600 then 60
  else 40.

(** Lines 279-285: draw [y] until it is more than 30 away from [circleY].
    The loop need not stop, so it is the relation of its finished runs. *)
Definition yOfDraw (f : R) : R := (screenHeight - 150) * f + 110.

Inductive sampleY : S -> R -> S -> Prop :=
| sampleY_accept s f s' :
    Float64 s = (f, s') ->
    30 < Rabs (yOfDraw f - circleY) ->
    sampleY s (yOfDraw f) s'
| sampleY_retry s f s' y s'' :
    Float64 s = (f, s') ->
    ~ 30 < Rabs (yOfDraw f - circleY) ->
    sampleY s' y s'' ->
    sampleY s y s''.

(** Lines 276-277. *)
Definition spawnX (n : Z) : R :=
  if Z.eqb (Z.rem n 2) 0 then -50 else screenWidth + 50.

Definition moverDeltaOf (x : R) : R := if Rltb x 0 then 1 else -1.

(** Lines 290-300: the coin trail. *)
Definition spawnCoins (pos : PolarCoordinates.t) (moverDelta : R)
  : list Coin.t :=
  map (fun i =>
         Coin.mk 0 pos (Mover.mk ((Z.of_nat i + 1) * 20) moverDelta)
           (if Nat.ltb i 3 then 10 else 7) false)
    (seq 0 6).

(** Lines 287-309: the spawn event at screen point [(x, y)]. *)
Definition mkSpawn (t : Z) (x y : R) : SpawnEvent :=
  let pos := fromScreen x y in
  let moverDelta := moverDeltaOf x in
  {| evTicks := t; evX := x; evY := y; evPos := pos; evDelta := moverDelta;
     evCoins := spawnCoins pos moverDelta;
     evEnemy := Enemy.mk 0 pos (Mover.mk 0 moverDelta) 10 |}.

Definition addSpawn (g : Game) (s : S) (ev : SpawnEvent) : Game :=
  {| fixedRandomSeed := fixedRandomSeed g; random := s;
     mode := mode g; ticksFromModeStart := ticksFromModeStart g;
     score := score g; hold := hold g; pendulumX := pendulumX g;
     pendulumVx := pendulumVx g; pendulumRotation := pendulumRotation g;
     skyImg := skyImg g; coins := coins g ++ evCoins ev;
     coinHitEffects := coinHitEffects g;
     enemies := enemies g ++ [evEnemy ev];
     lastPendulumTicks := lastPendulumTicks g |}.

Definition setRandom (g : Game) (s : S) : Game :=
  {| fixedRandomSeed := fixedRandomSeed g; random := s;
     mode := mode g; ticksFromModeStart := ticksFromModeStart g;
     score := score g; hold := hold g; pendulumX := pendulumX g;
     pendulumVx := pendulumVx g; pendulumRotation := pendulumRotation g;
     skyImg := skyImg g; coins := coins g; coinHitEffects := coinHitEffects g;
     enemies := enemies g; lastPendulumTicks := lastPendulumTicks g |}.

(** Lines 268-311: the spawner. *)
Inductive spawnStep : Game -> Game -> option SpawnEvent -> Prop :=
| spawnStep_none g n s1 :
    Int (random g) = (n, s1) ->
    Z.rem n (enemyAppearanceRate (ticksFromModeStart g)) <> 0%Z ->
    spawnStep g (setRandom g s1) None
| spawnStep_some g n s1 m s2 y s3 :
    Int (random g) = (n, s1) ->
    Z.rem n (enemyAppearanceRate (ticksFromModeStart g)) = 0%Z ->
    Int s1 = (m, s2) ->
    sampleY s2 y s3 ->
    spawnStep g
      (addSpawn g s3 (mkSpawn (ticksFromModeStart g) (spawnX m) y))
      (Some (mkSpawn (ticksFromModeStart g) (spawnX m) y)).

(** Lines 314-316 and 344-346: the hit test, in the unscaled polar plane. *)
Definition collides (px rot : R) (pos : PolarCoordinates.t) (er : R) : bool :=
  Rltb
    (Pow (px * cos rot - PolarCoordinates.r pos * cos (PolarCoordinates.theta pos)) 2 +
     Pow (px * sin rot - PolarCoordinates.r pos * sin (PolarCoordinates.theta pos)) 2)
    (Pow (pendulumR + er) 2).

(** Line 319. *)
Definition gainOf (cr : R) : Z :=
  if Rleb cr 5 then 100 else if Rleb cr 7 then 300 else 1000.

(** Lines 314-336: the body of the coin loop, threading the score and the
    effect list. *)
Definition coinBody (px rot : R) (c : Coin.t) (sc : Z)
  (effects : list CoinHitEffect.t) : Coin.t * Z * list CoinHitEffect.t :=
  let '(c, sc, effects) :=
    if collides px rot (Coin.pos c) (Coin.r c) then
      let gain := gainOf (Coin.r c) in
      (Coin.mk (Coin.ticks c) (Coin.pos c) (Coin.mover c) (Coin.r c) true,
       wrapI64 (sc + gain),
       effects ++ [CoinHitEffect.mk 0
                     (PolarCoordinates.mk (PolarCoordinates.r (Coin.pos c))
                        (PolarCoordinates.theta (Coin.pos c))) gain])
    else (c, sc, effects) in
  let t := wrapU64 (Coin.ticks c + 1) in
  (Coin.mk t (move (Coin.mover c) t (Coin.pos c)) (Coin.mover c) (Coin.r c)
     (Coin.hit c), sc, effects).

(** Lines 313-337. *)
Fixpoint coinLoop (px rot : R) (cs : list Coin.t) (sc : Z)
  (effects : list CoinHitEffect.t) : list Coin.t * Z * list CoinHitEffect.t :=
  match cs with
  | [] => ([], sc, effects)
  | c :: cs' =>
      let '(c', sc, effects) := coinBody px rot c sc effects in
      let '(rest, sc, effects) := coinLoop px rot cs' sc effects in
      (c' :: rest, sc, effects)
  end.

(** Lines 339-341. *)
Definition ageEffect (e : CoinHitEffect.t) : CoinHitEffect.t :=
  CoinHitEffect.mk (wrapU64 (CoinHitEffect.ticks e + 1))
    (CoinHitEffect.pos e) (CoinHitEffect.gain e).

(** Lines 361-363. *)
Definition advanceEnemy (e : Enemy.t) : Enemy.t :=
  let t := wrapU64 (Enemy.ticks e + 1) in
  Enemy.mk t (move (Enemy.mover e) t (Enemy.pos e)) (Enemy.mover e) (Enemy.r e).

(** Lines 343-364; the boolean says whether the loop ended on a hit, by
    [break], leaving that enemy and the ones after it as they were. *)
Fixpoint enemyLoop (px rot : R) (es : list Enemy.t) : list Enemy.t * bool :=
  match es with
  | [] => ([], false)
  | e :: es' =>
      if collides px rot (Enemy.pos e) (Enemy.r e) then (e :: es', true)
      else let '(rest, over) := enemyLoop px rot es' in
           (advanceEnemy e :: rest, over)
  end.

(** Lines 313-364 together. *)
Definition collisionPhase (g : Game) : Game :=
  let px := pendulumX g in
  let rot := pendulumRotation g in
  let '(cs, sc, effects) := coinLoop px rot (coins g) (score g) (coinHitEffects g) in
  let effects := map ageEffect effects in
  let '(es, over) := enemyLoop px rot (enemies g) in
  let g' :=
    {| fixedRandomSeed := fixedRandomSeed g; random := random g;
       mode := mode g; ticksFromModeStart := ticksFromModeStart g;
       score := sc; hold := hold g; pendulumX := px;
       pendulumVx := pendulumVx g; pendulumRotation := rot;
       skyImg := skyImg g; coins := cs; coinHitEffects := effects;
       enemies := es; lastPendulumTicks := lastPendulumTicks g |} in
  if over then setNextMode g' GameModeGameOver else g'.

(** Lines 367-368 and 376-377. *)
Definition onScreen (pos : PolarCoordinates.t) : bool :=
  let '(x, y) := toScreen pos in
  Rltb (-100) x && Rltb x (screenWidth + 100) &&
  Rltb (-100) y && Rltb y (screenHeight + 100).

Definition keepCoin (c : Coin.t) : bool := onScreen (Coin.pos c) && negb (Coin.hit c).
Definition keepEffect (e : CoinHitEffect.t) : bool := Z.ltb (CoinHitEffect.ticks e) 60.
Definition keepEnemy (e : Enemy.t) : bool := onScreen (Enemy.pos e).

(** Lines 366-378. *)
Definition filterPhase (g : Game) : Game :=
  {| fixedRandomSeed := fixedRandomSeed g; random := random g;
     mode := mode g; ticksFromModeStart := ticksFromModeStart g;
     score := score g; hold := hold g; pendulumX := pendulumX g;
     pendulumVx := pendulumVx g; pendulumRotation := pendulumRotation g;
     skyImg := skyImg g; coins := filter keepCoin (coins g);
     coinHitEffects := filter keepEffect (coinHitEffects g);
     enemies := filter keepEnemy (enemies g);
     lastPendulumTicks := lastPendulumTicks g |}.

(** One call of [Game.Update], with the spawn event it produced, if any. *)
Inductive update : Game -> Input -> Game -> option SpawnEvent -> Prop :=
| update_title g i :
    mode g = GameModeTitle ->
    update g i (titleStep (incTicks g) i) None
| update_playing g i g2 ev :
    mode g = GameModePlaying ->
    spawnStep (physicsPhase (incTicks g) i) g2 ev ->
    update g i (filterPhase (collisionPhase g2)) ev
| update_gameover g i :
    mode g = GameModeGameOver ->
    update g i (gameOverStep (incTicks g) i) None.

(** A run of [Game.Update] over a list of inputs, with its spawn events. *)
Inductive run : Game -> list Input -> Game -> list (option SpawnEvent) -> Prop :=
| run_nil g : run g [] g []
| run_cons g i is g1 ev g2 evs :
    update g i g1 ev -> run g1 is g2 evs -> run g (i :: is) g2 (ev :: evs).

End Game.

Arguments Game S : clear implicits.

(** ** A concrete generator, for the witnesses

    A counter: [Int] returns the counter itself, [Float64] and
    [NormFloat64] return [0]; each draw moves the counter on. *)

#[export] Instance counterRand : Rand nat := {|
  newRand := fun z => Z.to_nat z;
  Int := fun s => (Z.of_nat s, Datatypes.S s);
  Float64 := fun s => (0, Datatypes.S s);
  NormFloat64 := fun s => (0, Datatypes.S s)
|}.

(** A game in the middle of a play, its pendulum about to be reset. *)
Definition playingGame (s : nat) (sc : Z) (cs : list Coin.t)
  (es : list Enemy.t) : Game nat :=
  {| fixedRandomSeed := 1; random := s; mode := GameModePlaying;
     ticksFromModeStart := 479; score := sc; hold := false;
     pendulumX := 0; pendulumVx := 0; pendulumRotation := 0;
     skyImg := []; coins := cs; coinHitEffects := []; enemies := es;
     lastPendulumTicks := 0 |}.

Definition noInput : Input := mkInput false false 0.

(** Coins and an enemy placed for the witnesses and counterexamples: at the
    centre of the field, and at the pendulum's amplitude on the axis
    [theta = 0]. *)
Definition coinAtCenter : Coin.t :=
  Coin.mk 0 (PolarCoordinates.mk 0 0) (Mover.mk 20 1) 10 false.

Definition enemyAtCenter : Enemy.t :=
  Enemy.mk 0 (PolarCoordinates.mk 0 0) (Mover.mk 0 1) 10.

Definition coinAtAmplitude : Coin.t :=
  Coin.mk 0 (PolarCoordinates.mk 220 0) (Mover.mk 20 1) 10 false.

(** A touch, pressed on this frame. *)
Definition touchIn : Input := mkInput true false 0.

(** A game in the middle of a play, like [playingGame], with coin-hit
    effects as well. *)
Definition busyGame (cs : list Coin.t) (efs : list CoinHitEffect.t)
  (es : list Enemy.t) : Game nat :=
  {| fixedRandomSeed := 1%Z; random := 1%nat; mode := GameModePlaying;
     ticksFromModeStart := 479%Z; score := 0%Z; hold := false;
     pendulumX := 0; pendulumVx := 0; pendulumRotation := 0;
     skyImg := []; coins := cs; coinHitEffects := efs; enemies := es;
     lastPendulumTicks := 0%Z |}.

(** A coin and an enemy beyond the right edge of the screen (screen x
    1320), waiting for a long delay; and an effect of a given age. *)
Definition farPos : PolarCoordinates.t := PolarCoordinates.mk 1000 0.

Definition farCoin : Coin.t := Coin.mk 0 farPos (Mover.mk 1000 1) 10 false.

Definition farEnemy : Enemy.t := Enemy.mk 0 farPos (Mover.mk 1000 1) 10.

Definition agedEffect (t : Z) : CoinHitEffect.t :=
  CoinHitEffect.mk t (PolarCoordinates.mk 0 0) 100.

(** The game after two ticks from [start 0 1 clock], touched on both: the
    first starts the play, the second is a Playing tick, with the pendulum
    held. *)
Definition playedTwice (clock : Z) : Game nat :=
  let g1 := titleStep (incTicks (start 0%nat 1 clock)) touchIn in
  filterPhase (collisionPhase
    (setRandom (physicsPhase (incTicks g1) touchIn) 1502%nat)).

(** The part of an input that a fixed-seed run depends on. *)
Definition touches (i : Input) : bool * bool := (justTouched i, justReleased i).

(** A score gain of a coin hit. *)
Definition isGain (z : Z) : Prop := z = 100%Z \/ z = 300%Z \/ z = 1000%Z.

(** ** Positions computed by the drawing code

    The drawing functions only compute screen positions and hand them to the
    engine; these are their computations. *)

(** [Game.drawPendulum] (lines 451-458): the bob's screen point. *)
Definition pendulumScreen {S : Type} (g : Game S) : R * R :=
  let x := pendulumX g * cos (pendulumRotation g) + circleX in
  let y := pendulumX g * sin (pendulumRotation g) * circleVerticalScale + circleY in
  (x, y).

(** [Game.drawGuide] (lines 476-485): the two ends of the guide line,
    before their conversion to [float32]. *)
Definition guideEnds {S : Type} (g : Game S) : (R * R) * (R * R) :=
  let pos := PolarCoordinates.mk pendulumAmplitude (pendulumRotation g) in
  let p0 := toScreen pos in
  let pos := PolarCoordinates.mk (PolarCoordinates.r pos)
               (PolarCoordinates.theta pos + PI) in
  (p0, toScreen pos).


(** The effect that the coin loop appends for a hit coin (lines 323-328). *)
Definition hitEffect (c : Coin.t) : CoinHitEffect.t :=
  CoinHitEffect.mk 0
    (PolarCoordinates.mk (PolarCoordinates.r (Coin.pos c))
       (PolarCoordinates.theta (Coin.pos c)))
    (gainOf (Coin.r c)).

(** ** The pendulum's conserved quantity

    The update [vx += -k x; x += vx] (lines 259-260, [k = gravity /
    pendulumLength]) is the semi-implicit Euler scheme, which keeps
    [vx^2 + k x^2 - k x vx] unchanged. *)
Definition pendulumK : R := gravity / pendulumLength.

Definition pendulumEnergy (x vx : R) : R :=
  vx * vx + pendulumK * x * x - pendulumK * x * vx.

(** What every reachable game keeps: at rest on the title screen, the
    energy of a swing from the amplitude afterwards. *)
Definition pendulumInv {S : Type} (g : Game S) : Prop :=
  (mode g = GameModeTitle /\ pendulumVx g = 0) \/
  (mode g <> GameModeTitle /\
   pendulumEnergy (pendulumX g) (pendulumVx g) = pendulumEnergy pendulumAmplitude 0).

(** The ages that the coin-hit effects of a game keep between ticks. *)
Definition effectsYoung {S : Type} (g : Game S) : Prop :=
  Forall (fun e => (1 <= CoinHitEffect.ticks e <= 59)%Z) (coinHitEffects g).

(** A game reached from [main] by a run of ticks. *)
Definition reachable {S : Type} `{Rand S} (g : Game S) : Prop :=
  exists s0 seed clock ins evs, run (start s0 seed clock) ins g evs.

(** * Properties *)

(** ** Helper lemmas *)

Lemma Rltb_true (a b : R) : Rltb a b = true <-> a < b.
Proof. unfold Rltb; destruct (Rlt_dec a b); split; intros; auto; discriminate || lra. Qed.

Lemma Rleb_true (a b : R) : Rleb a b = true <-> a <= b.
Proof. unfold Rleb; destruct (Rle_dec a b); split; intros; auto; discriminate || lra. Qed.

Lemma collides_iff (px rot : R) (pos : PolarCoordinates.t) (er : R) :
  collides px rot pos er = true <->
  (px * cos rot - PolarCoordinates.r pos * cos (PolarCoordinates.theta pos)) ^ 2 +
  (px * sin rot - PolarCoordinates.r pos * sin (PolarCoordinates.theta pos)) ^ 2
  < (pendulumR + er) ^ 2.
Proof. unfold collides, Pow. apply Rltb_true. Qed.

Lemma collides_same_point (px rot : R) (pos : PolarCoordinates.t) (er : R) :
  px * cos rot = PolarCoordinates.r pos * cos (PolarCoordinates.theta pos) ->
  px * sin rot = PolarCoordinates.r pos * sin (PolarCoordinates.theta pos) ->
  0 < er -> collides px rot pos er = true.
Proof.
  intros Hc Hs Her. apply collides_iff. rewrite Hc, Hs.
  unfold pendulumR. nra.
Qed.

Lemma gainOf_tiers (cr : R) :
  (cr <= 5 -> gainOf cr = 100%Z) /\
  (5 < cr <= 7 -> gainOf cr = 300%Z) /\
  (7 < cr -> gainOf cr = 1000%Z).
Proof.
  unfold gainOf, Rleb.
  destruct (Rle_dec cr 5); destruct (Rle_dec cr 7); repeat split; intros; lra || reflexivity.
Qed.

Lemma gainOf_10 : gainOf 10 = 1000%Z.
Proof. apply gainOf_tiers. lra. Qed.

Lemma gainOf_7 : gainOf 7 = 300%Z.
Proof. apply gainOf_tiers. lra. Qed.

Section Phases.
Context {S : Type} `{Rand S}.

Lemma setNextMode_fields (g : Game S) (m : GameMode) :
  pendulumX (setNextMode g m) = pendulumX g /\
  pendulumVx (setNextMode g m) = pendulumVx g /\
  lastPendulumTicks (setNextMode g m) = lastPendulumTicks g /\
  score (setNextMode g m) = score g /\
  coins (setNextMode g m) = coins g /\
  enemies (setNextMode g m) = enemies g /\
  coinHitEffects (setNextMode g m) = coinHitEffects g /\
  fixedRandomSeed (setNextMode g m) = fixedRandomSeed g.
Proof. repeat split. Qed.

Lemma spawnStep_fields (g g2 : Game S) (ev : option SpawnEvent) :
  spawnStep g g2 ev ->
  pendulumX g2 = pendulumX g /\ pendulumVx g2 = pendulumVx g /\
  lastPendulumTicks g2 = lastPendulumTicks g /\ score g2 = score g /\
  pendulumRotation g2 = pendulumRotation g /\ mode g2 = mode g /\
  coinHitEffects g2 = coinHitEffects g /\
  fixedRandomSeed g2 = fixedRandomSeed g.
Proof. intros Hs; inversion Hs; subst; repeat split. Qed.

Lemma collisionPhase_pendulum (g : Game S) :
  pendulumX (collisionPhase g) = pendulumX g /\
  pendulumVx (collisionPhase g) = pendulumVx g /\
  lastPendulumTicks (collisionPhase g) = lastPendulumTicks g /\
  fixedRandomSeed (collisionPhase g) = fixedRandomSeed g.
Proof.
  unfold collisionPhase.
  destruct (coinLoop _ _ _ _ _) as [[cs sc] efs].
  destruct (enemyLoop _ _ _) as [es over].
  destruct over; repeat split.
Qed.

Lemma physicsPhase_reset (g : Game S) (i : Input) :
  Z.modulo (wrapU64 (ticksFromModeStart g - lastPendulumTicks g)) 480 = 0%Z ->
  pendulumX (physicsPhase g i) = pendulumAmplitude /\
  pendulumVx (physicsPhase g i) = 0 /\
  lastPendulumTicks (physicsPhase g i) = ticksFromModeStart g.
Proof.
  intros Hm. unfold physicsPhase, pendulumStep. rewrite Hm. simpl. repeat split.
Qed.

End Phases.

Lemma sqrt_hyp_abs (x y : R) :
  x <> 0 -> sqrt (x * x + y * y) = Rabs x * sqrt (1 + (y / x)²).
Proof.
  intros Hx.
  replace (x * x + y * y) with (x² * (1 + (y / x)²))
    by (unfold Rsqr; field; exact Hx).
  rewrite sqrt_mult_alt by (apply Rle_0_sqr).
  now rewrite sqrt_Rsqr_abs.
Qed.

(** [Atan2] inverts the polar form of every point of the plane. *)
Lemma polar_of_cartesian (x y : R) :
  sqrt (x * x + y * y) * cos (Atan2 y x) = x /\
  sqrt (x * x + y * y) * sin (Atan2 y x) = y.
Proof.
  unfold Atan2.
  destruct (Req_EM_T y 0) as [Hy | Hy].
  - subst y. replace (x * x + 0 * 0) with (x * x) by ring.
    destruct (Rle_dec 0 x) as [Hx | Hx].
    + rewrite sqrt_square by exact Hx. rewrite cos_0, sin_0. split; ring.
    + replace (x * x) with ((- x) * (- x)) by ring.
      rewrite sqrt_square by lra. rewrite cos_PI, sin_PI. split; ring.
  - destruct (Req_EM_T x 0) as [Hx | Hx].
    + subst x. replace (0 * 0 + y * y) with (y * y) by ring.
      destruct (Rlt_dec 0 y) as [Hy' | Hy'].
      * rewrite sqrt_square by lra. rewrite cos_PI2, sin_PI2. split; ring.
      * replace (y * y) with ((- y) * (- y)) by ring.
        rewrite sqrt_square by lra. rewrite cos_neg, sin_neg, cos_PI2, sin_PI2.
        split; ring.
    + rewrite (sqrt_hyp_abs x y Hx).
      assert (Hs : 0 < sqrt (1 + (y / x)²)).
      { apply sqrt_lt_R0. pose proof (Rle_0_sqr (y / x)). lra. }
      assert (Hc : forall q, cos (q - PI) = - cos q).
      { intro q. replace q with ((q - PI) + PI) at 2 by ring. rewrite neg_cos. ring. }
      assert (Hsn : forall q, sin (q - PI) = - sin q).
      { intro q. replace q with ((q - PI) + PI) at 2 by ring. rewrite neg_sin. ring. }
      destruct (Rlt_dec x 0) as [Hneg | Hpos].
      * rewrite Rabs_left by exact Hneg.
        destruct (Rle_dec (atan (y / x)) 0);
          [rewrite neg_cos, neg_sin | rewrite Hc, Hsn];
          rewrite cos_atan, sin_atan; split; field; lra.
      * rewrite Rabs_right by lra.
        rewrite cos_atan, sin_atan. split; field; lra.
Qed.

(** ** C8 *)

(** Claim C8: converting a screen point [(x, y)] to polar coordinates with
    [fromScreen] and back with [toScreen] gives [(x, y)] again.  The
    arithmetic is exact (the reals), the idealisation of [float64] that the
    claim's "up to floating-point error" refers to; it holds for every
    point, inside the visible field or not. *)
Theorem toScreen_fromScreen (x y : R) : toScreen (fromScreen x y) = (x, y).
Proof.
  unfold toScreen, fromScreen. simpl.
  set (x' := x - circleX). set (y' := (y - circleY) / circleVerticalScale).
  destruct (polar_of_cartesian x' y') as [Hx Hy].
  rewrite Hx, Hy. unfold x', y', circleVerticalScale.
  f_equal; field.
Qed.

Lemma onScreen_iff (pos : PolarCoordinates.t) :
  onScreen pos = true <->
  (-100 < fst (toScreen pos) < screenWidth + 100 /\
   -100 < snd (toScreen pos) < screenHeight + 100).
Proof.
  unfold onScreen. destruct (toScreen pos) as [x y]. simpl.
  rewrite !andb_true_iff, !Rltb_true. tauto.
Qed.

(** The playing game above, with no input, takes a tick without spawning. *)
Lemma playingGame_update (sc : Z) (cs : list Coin.t) (es : list Enemy.t) :
  update (playingGame 1 sc cs es) noInput
    (filterPhase (collisionPhase
       (setRandom (physicsPhase (incTicks (playingGame 1 sc cs es)) noInput) 2%nat)))
    None.
Proof.
  apply update_playing; [reflexivity |].
  apply (spawnStep_none _ 1%Z 2%nat); [reflexivity | cbv; discriminate].
Qed.

(** So does [busyGame]. *)
Lemma busyGame_update (cs : list Coin.t) (efs : list CoinHitEffect.t)
  (es : list Enemy.t) :
  update (busyGame cs efs es) noInput
    (filterPhase (collisionPhase
       (setRandom (physicsPhase (incTicks (busyGame cs efs es)) noInput) 2%nat)))
    None.
Proof.
  apply update_playing; [reflexivity |].
  apply (spawnStep_none _ 1%Z 2%nat); [reflexivity | cbv; discriminate].
Qed.

(** Two touched ticks from [start 0 1 clock] reach [playedTwice clock]:
    the random state 1501 is not a multiple of the rate 180, so no spawn. *)
Lemma playedTwice_run (clock : Z) :
  run (start 0%nat 1 clock) [touchIn; touchIn] (playedTwice clock) [None; None].
Proof.
  unfold playedTwice.
  eapply run_cons; [apply update_title; reflexivity |].
  eapply run_cons; [| apply run_nil].
  apply update_playing; [reflexivity |].
  apply (spawnStep_none _ 1501%Z 1502%nat); [reflexivity |].
  intros Hc. lazy in Hc. discriminate Hc.
Qed.

(** With the seed 120, the first Playing tick spawns: the random state
    after [start] is 1620, a multiple of the rate 180. *)
Lemma spawn_run (clock : Z) :
  exists g ev, run (start 0%nat 120 clock) [touchIn; noInput] g [None; Some ev].
Proof.
  do 2 eexists.
  eapply run_cons; [apply update_title; reflexivity |].
  eapply run_cons; [| apply run_nil].
  apply update_playing; [reflexivity |].
  refine (spawnStep_some _ 1620%Z 1621%nat 1621%Z 1622%nat (yOfDraw 0) 1623%nat
            _ _ _ _); [reflexivity | reflexivity | reflexivity |].
  apply (@sampleY_accept nat counterRand 1622%nat 0 1623%nat eq_refl).
  unfold yOfDraw, circleY, screenHeight. rewrite Rabs_left by lra. lra.
Qed.

(** The coins after the coin loop: each aged by one tick, moved, and
    marked hit when under the bob. *)
Lemma coinLoop_map (px rot : R) (cs : list Coin.t) :
  forall (sc : Z) (efs : list CoinHitEffect.t),
  fst (fst (coinLoop px rot cs sc efs)) =
  map (fun c => Coin.mk (wrapU64 (Coin.ticks c + 1))
                  (move (Coin.mover c) (wrapU64 (Coin.ticks c + 1)) (Coin.pos c))
                  (Coin.mover c) (Coin.r c)
                  (Coin.hit c || collides px rot (Coin.pos c) (Coin.r c))) cs.
Proof.
  induction cs as [| c cs IH]; intros sc efs; [reflexivity |].
  cbn [coinLoop].
  assert (Hb : fst (fst (coinBody px rot c sc efs)) =
                 Coin.mk (wrapU64 (Coin.ticks c + 1))
                   (move (Coin.mover c) (wrapU64 (Coin.ticks c + 1)) (Coin.pos c))
                   (Coin.mover c) (Coin.r c)
                   (Coin.hit c || collides px rot (Coin.pos c) (Coin.r c))).
  { unfold coinBody. destruct (collides _ _ _ _); cbn.
    - now rewrite orb_true_r.
    - now rewrite orb_false_r. }
  destruct (coinBody px rot c sc efs) as [[c1 sc1] efs1]. cbn [fst] in Hb. subst c1.
  specialize (IH sc1 efs1).
  destruct (coinLoop px rot cs sc1 efs1) as [[rest sc2] efs2]. cbn [fst] in IH |- *.
  now rewrite IH.
Qed.

(** An enemy loop that ends without a hit advances every enemy. *)
Lemma enemyLoop_nohit (px rot : R) (es : list Enemy.t) :
  snd (enemyLoop px rot es) = false -> fst (enemyLoop px rot es) = map advanceEnemy es.
Proof.
  induction es as [| e es IH]; cbn; [reflexivity |].
  destruct (collides px rot (Enemy.pos e) (Enemy.r e)); cbn; [discriminate |].
  destruct (enemyLoop px rot es) as [rest over]. cbn in IH |- *.
  intros Ho. now rewrite IH.
Qed.

(** ** C1 *)

(** Claim C1: on a Playing tick whose counter [t] (after its increment)
    satisfies [(t - lastPendulumTicks) % 480 == 0] ([uint64] subtraction),
    the tick ends with [pendulumVx = 0], [pendulumX = 220] (the amplitude)
    and [lastPendulumTicks = t], whatever the input. *)
Theorem pendulum_reset_at_480 {S : Type} `{Rand S} (g g' : Game S) (i : Input)
  (ev : option SpawnEvent) :
  mode g = GameModePlaying ->
  Z.modulo (wrapU64 (wrapU64 (ticksFromModeStart g + 1) - lastPendulumTicks g)) 480
    = 0%Z ->
  update g i g' ev ->
  pendulumVx g' = 0 /\ pendulumX g' = 220 /\
  lastPendulumTicks g' = wrapU64 (ticksFromModeStart g + 1).
Proof.
  intros Hm Hr Hu.
  inversion Hu as [g0 i0 Hm0 | g0 i0 g2 ev0 Hm0 Hsp | g0 i0 Hm0]; subst;
    try congruence.
  destruct (physicsPhase_reset (incTicks g) i Hr) as (Hx & Hv & Hl).
  destruct (spawnStep_fields _ _ _ Hsp) as (Hx2 & Hv2 & Hl2 & _).
  destruct (collisionPhase_pendulum g2) as (Hx3 & Hv3 & Hl3 & _).
  cbn [filterPhase pendulumX pendulumVx lastPendulumTicks].
  rewrite Hx3, Hv3, Hl3, Hx2, Hv2, Hl2, Hx, Hv, Hl.
  repeat split.
Qed.

Lemma pendulum_reset_at_480_witness :
  mode (playingGame 1 0 [] []) = GameModePlaying /\
  Z.modulo (wrapU64 (wrapU64 (ticksFromModeStart (playingGame 1 0 [] []) + 1)
                     - lastPendulumTicks (playingGame 1 0 [] []))) 480 = 0%Z /\
  pendulumVx (filterPhase (collisionPhase (setRandom
    (physicsPhase (incTicks (playingGame 1 0 [] [])) noInput) 2%nat))) = 0.
Proof.
  split; [reflexivity |]. split; [reflexivity |].
  apply (pendulum_reset_at_480 (playingGame 1 0 [] []) _ noInput None);
    [reflexivity | reflexivity | apply playingGame_update].
Defined.

(** ** C3 *)

(** Claim C3: a spawn event adds to the game exactly six coins, the [i]-th
    with delay [(i+1)*20] and radius 10 for [i < 3], 7 otherwise, and one
    enemy with delay 0 and radius 10, all at the event's spawn point and
    with its horizontal mover delta. *)
Theorem spawn_group_shape {S : Type} `{Rand S} (g g' : Game S) (ev : SpawnEvent) :
  spawnStep g g' (Some ev) ->
  coins g' = coins g ++ evCoins ev /\
  enemies g' = enemies g ++ [evEnemy ev] /\
  length (evCoins ev) = 6%nat /\
  (forall (i : nat) (c : Coin.t), nth_error (evCoins ev) i = Some c ->
     Mover.delay (Coin.mover c) = ((Z.of_nat i + 1) * 20)%Z /\
     Coin.r c = (if Nat.ltb i 3 then 10 else 7) /\
     Coin.pos c = evPos ev /\ Mover.delta (Coin.mover c) = evDelta ev) /\
  map (fun c => (Mover.delay (Coin.mover c), Coin.r c)) (evCoins ev) =
    [(20%Z, 10); (40%Z, 10); (60%Z, 10); (80%Z, 7); (100%Z, 7); (120%Z, 7)] /\
  Mover.delay (Enemy.mover (evEnemy ev)) = 0%Z /\ Enemy.r (evEnemy ev) = 10 /\
  Enemy.pos (evEnemy ev) = evPos ev /\
  Mover.delta (Enemy.mover (evEnemy ev)) = evDelta ev.
Proof.
  intros Hs. inversion Hs; subst.
  cbn [addSpawn coins enemies]. unfold mkSpawn. cbn [evCoins evEnemy evPos evDelta].
  split; [reflexivity |]. split; [reflexivity |]. split; [reflexivity |].
  split.
  - intros i c Hn.
    destruct i as [|[|[|[|[|[|i]]]]]]; cbn in Hn;
      try (destruct i; discriminate);
      injection Hn as <-; cbn; repeat split.
  - repeat split.
Qed.

Lemma spawn_group_shape_witness :
  spawnStep (playingGame 0 0 [] [])
    (addSpawn (playingGame 0 0 [] []) 3%nat (mkSpawn 479 (spawnX 1) (yOfDraw 0)))
    (Some (mkSpawn 479 (spawnX 1) (yOfDraw 0))) /\
  length (evCoins (mkSpawn 479 (spawnX 1) (yOfDraw 0))) = 6%nat.
Proof.
  assert (Hs : spawnStep (playingGame 0 0 [] [])
    (addSpawn (playingGame 0 0 [] []) 3%nat (mkSpawn 479 (spawnX 1) (yOfDraw 0)))
    (Some (mkSpawn 479 (spawnX 1) (yOfDraw 0)))).
  { refine (spawnStep_some (playingGame 0 0 [] []) 0%Z 1%nat 1%Z 2%nat
              (yOfDraw 0) 3%nat _ _ _ _);
      [reflexivity | reflexivity | reflexivity |].
    apply sampleY_accept; [reflexivity |].
    unfold yOfDraw, circleY, screenHeight.
    rewrite Rabs_left; lra. }
  split; [exact Hs |].
  apply (spawn_group_shape _ _ _ Hs).
Defined.

Section Loops.
Context {S : Type} `{Rand S}.

Lemma coinBody_hit (px rot : R) (c : Coin.t) (sc : Z) (efs : list CoinHitEffect.t) :
  Coin.hit (fst (fst (coinBody px rot c sc efs))) =
  Coin.hit c || collides px rot (Coin.pos c) (Coin.r c).
Proof.
  unfold coinBody. destruct (collides px rot (Coin.pos c) (Coin.r c)); cbn.
  - now rewrite orb_true_r.
  - now rewrite orb_false_r.
Qed.

Lemma coinLoop_nth (px rot : R) (cs : list Coin.t) :
  forall (sc : Z) (efs : list CoinHitEffect.t) (k : nat) (c : Coin.t),
  nth_error cs k = Some c ->
  exists c', nth_error (fst (fst (coinLoop px rot cs sc efs))) k = Some c' /\
    Coin.hit c' = Coin.hit c || collides px rot (Coin.pos c) (Coin.r c).
Proof.
  induction cs as [| c0 cs IH]; intros sc efs k c Hn.
  - destruct k; discriminate.
  - cbn [coinLoop].
    pose proof (coinBody_hit px rot c0 sc efs) as Hb.
    destruct (coinBody px rot c0 sc efs) as [[c0' sc1] efs1].
    specialize (IH sc1 efs1).
    destruct (coinLoop px rot cs sc1 efs1) as [[rest sc2] efs2] eqn:El.
    destruct k as [| k]; cbn in Hn |- *.
    + injection Hn as <-. exists c0'. split; [reflexivity | exact Hb].
    + destruct (IH k c Hn) as (c' & Hc' & Hh). cbn in Hc'.
      exists c'. split; assumption.
Qed.

Lemma enemyLoop_over (px rot : R) (es : list Enemy.t) :
  snd (enemyLoop px rot es) =
  existsb (fun e => collides px rot (Enemy.pos e) (Enemy.r e)) es.
Proof.
  induction es as [| e es IH]; cbn; [reflexivity |].
  destruct (collides px rot (Enemy.pos e) (Enemy.r e)); cbn; [reflexivity |].
  destruct (enemyLoop px rot es) as [rest over]. exact IH.
Qed.

Lemma collisionPhase_parts (g : Game S) :
  let px := pendulumX g in
  let rot := pendulumRotation g in
  let res := coinLoop px rot (coins g) (score g) (coinHitEffects g) in
  coins (collisionPhase g) = fst (fst res) /\
  score (collisionPhase g) = snd (fst res) /\
  coinHitEffects (collisionPhase g) = map ageEffect (snd res) /\
  enemies (collisionPhase g) = fst (enemyLoop px rot (enemies g)) /\
  mode (collisionPhase g) =
    (if snd (enemyLoop px rot (enemies g)) then GameModeGameOver else mode g).
Proof.
  unfold collisionPhase. cbv zeta.
  destruct (coinLoop _ _ _ _ _) as [[cs sc] efs].
  destruct (enemyLoop _ _ _) as [es over].
  destruct over; repeat split.
Qed.

End Loops.

(** ** C2 *)

(** Claim C2: the hit test of the collision phase.  A hit is registered
    exactly when the squared distance between the bob
    [(pendulumX cos rot, pendulumX sin rot)] and the entity
    [(r cos theta, r sin theta)], in the unscaled polar plane, is below
    [(pendulumR + radius)^2]: for every coin, its hit flag after the coin
    loop; for the enemies, the switch to game over (the loop stops at the
    first enemy hit).  Coincident positions with a positive radius always
    hit. *)
Theorem hit_test_exact {S : Type} `{Rand S} (g : Game S) :
  let px := pendulumX g in
  let rot := pendulumRotation g in
  let dist2 (pos : PolarCoordinates.t) :=
    (px * cos rot - PolarCoordinates.r pos * cos (PolarCoordinates.theta pos)) ^ 2 +
    (px * sin rot - PolarCoordinates.r pos * sin (PolarCoordinates.theta pos)) ^ 2 in
  (forall (pos : PolarCoordinates.t) (er : R),
     collides px rot pos er = true <-> dist2 pos < (pendulumR + er) ^ 2) /\
  (forall (k : nat) (c : Coin.t), nth_error (coins g) k = Some c ->
     exists c', nth_error (coins (collisionPhase g)) k = Some c' /\
       (Coin.hit c' = true <->
        Coin.hit c = true \/ dist2 (Coin.pos c) < (pendulumR + Coin.r c) ^ 2)) /\
  (mode g = GameModePlaying ->
     (mode (collisionPhase g) = GameModeGameOver <->
      exists e, In e (enemies g) /\
        dist2 (Enemy.pos e) < (pendulumR + Enemy.r e) ^ 2)) /\
  (forall (pos : PolarCoordinates.t) (er : R),
     px * cos rot = PolarCoordinates.r pos * cos (PolarCoordinates.theta pos) ->
     px * sin rot = PolarCoordinates.r pos * sin (PolarCoordinates.theta pos) ->
     0 < er -> collides px rot pos er = true).
Proof.
  intros px rot dist2.
  destruct (collisionPhase_parts g) as (Hc & _ & _ & _ & Hm).
  split; [intros pos er; apply collides_iff |].
  split.
  - intros k c Hn. rewrite Hc.
    destruct (coinLoop_nth px rot (coins g) (score g) (coinHitEffects g) k c Hn)
      as (c' & Hn' & Hh).
    exists c'. split; [exact Hn' |].
    rewrite Hh, orb_true_iff, collides_iff. tauto.
  - split; [| intros pos er; apply collides_same_point].
    intros Hp. rewrite Hm, enemyLoop_over.
    destruct (existsb _ (enemies g)) eqn:Ex.
    + apply existsb_exists in Ex. destruct Ex as (e & Hin & He).
      split; [intros _ | reflexivity].
      exists e. split; [exact Hin | apply collides_iff; exact He].
    + rewrite Hp. split; [discriminate |].
      intros (e & Hin & Hd).
      assert (Ht : existsb (fun e => collides px rot (Enemy.pos e) (Enemy.r e))
                     (enemies g) = true).
      { apply existsb_exists. exists e. split; [exact Hin | apply collides_iff; exact Hd]. }
      unfold px, rot in Ht. rewrite Ex in Ht. discriminate.
Qed.

(** ** C4 *)

(** Claim C4: when the coin loop finds a coin hit, the coin's hit flag is
    set, the gain is 100, 300 or 1000 by radius tier ([r <= 5], [r <= 7],
    otherwise; 1000 for radius 10 and 300 for radius 7), an effect carrying
    the gain is appended at the coin's polar position, and the gain is added
    to the score with Go's [int] addition. *)
Theorem coin_hit_scoring (px rot : R) (c : Coin.t) (sc : Z)
  (effects : list CoinHitEffect.t) :
  collides px rot (Coin.pos c) (Coin.r c) = true ->
  let '(c', sc', effects') := coinBody px rot c sc effects in
  Coin.hit c' = true /\
  effects' = effects ++ [CoinHitEffect.mk 0 (Coin.pos c) (gainOf (Coin.r c))] /\
  sc' = wrapI64 (sc + gainOf (Coin.r c)) /\
  (Coin.r c <= 5 -> gainOf (Coin.r c) = 100%Z) /\
  (5 < Coin.r c <= 7 -> gainOf (Coin.r c) = 300%Z) /\
  (7 < Coin.r c -> gainOf (Coin.r c) = 1000%Z) /\
  gainOf 10 = 1000%Z /\ gainOf 7 = 300%Z.
Proof.
  intros Hc. unfold coinBody. rewrite Hc.
  destruct (gainOf_tiers (Coin.r c)) as (G1 & G2 & G3).
  destruct c as [t [pr pt] m r h]. cbn.
  repeat split; auto using gainOf_10, gainOf_7.
Qed.

Lemma coin_hit_scoring_witness :
  collides 0 0 (Coin.pos coinAtCenter) (Coin.r coinAtCenter) = true /\
  snd (fst (coinBody 0 0 coinAtCenter 0 [])) = wrapI64 (0 + 1000).
Proof.
  assert (Hc : collides 0 0 (Coin.pos coinAtCenter) (Coin.r coinAtCenter) = true).
  { apply collides_same_point; cbn; [ring | ring | lra]. }
  split; [exact Hc |].
  pose proof (coin_hit_scoring 0 0 coinAtCenter 0 [] Hc) as Hs.
  revert Hs. destruct (coinBody 0 0 coinAtCenter 0 []) as [[c' sc'] e'].
  intros (_ & _ & Hsc & _ & _ & _ & H10 & _). cbn.
  rewrite Hsc. cbn [coinAtCenter Coin.r]. now rewrite H10.
Defined.

(** ** C7 *)

(** Claim C7: a Playing tick ends with the filtering of lines 366-378: a
    coin stays exactly when its screen point lies in
    [(-100, width+100) x (-100, height+100)] and it is not hit, an enemy
    exactly when its screen point lies there, an effect exactly when its
    age is below 60; so a coin or enemy with screen x above [width+100] is
    gone at the end of the tick. *)
Theorem end_of_tick_filter {S : Type} `{Rand S} (g g' : Game S) (i : Input)
  (ev : option SpawnEvent) :
  mode g = GameModePlaying ->
  update g i g' ev ->
  exists g2, spawnStep (physicsPhase (incTicks g) i) g2 ev /\
    let gm := collisionPhase g2 in
    (forall c, In c (coins g') <->
       In c (coins gm) /\
       -100 < fst (toScreen (Coin.pos c)) < screenWidth + 100 /\
       -100 < snd (toScreen (Coin.pos c)) < screenHeight + 100 /\
       Coin.hit c = false) /\
    (forall e, In e (enemies g') <->
       In e (enemies gm) /\
       -100 < fst (toScreen (Enemy.pos e)) < screenWidth + 100 /\
       -100 < snd (toScreen (Enemy.pos e)) < screenHeight + 100) /\
    (forall e, In e (coinHitEffects g') <->
       In e (coinHitEffects gm) /\ (CoinHitEffect.ticks e < 60)%Z) /\
    (forall c, screenWidth + 100 < fst (toScreen (Coin.pos c)) -> ~ In c (coins g')) /\
    (forall e, screenWidth + 100 < fst (toScreen (Enemy.pos e)) -> ~ In e (enemies g')).
Proof.
  intros Hm Hu.
  inversion Hu as [g0 i0 Hm0 | g0 i0 g2 ev0 Hm0 Hsp | g0 i0 Hm0]; subst;
    try congruence.
  exists g2. split; [exact Hsp |]. cbv zeta.
  assert (Hc : forall c, In c (coins (filterPhase (collisionPhase g2))) <->
       In c (coins (collisionPhase g2)) /\
       -100 < fst (toScreen (Coin.pos c)) < screenWidth + 100 /\
       -100 < snd (toScreen (Coin.pos c)) < screenHeight + 100 /\
       Coin.hit c = false).
  { intros c. cbn [filterPhase coins]. rewrite filter_In. unfold keepCoin.
    rewrite andb_true_iff, onScreen_iff, negb_true_iff. tauto. }
  assert (He : forall e, In e (enemies (filterPhase (collisionPhase g2))) <->
       In e (enemies (collisionPhase g2)) /\
       -100 < fst (toScreen (Enemy.pos e)) < screenWidth + 100 /\
       -100 < snd (toScreen (Enemy.pos e)) < screenHeight + 100).
  { intros e. cbn [filterPhase enemies]. rewrite filter_In. unfold keepEnemy.
    rewrite onScreen_iff. tauto. }
  split; [exact Hc |]. split; [exact He |].
  split.
  { intros e. cbn [filterPhase coinHitEffects]. rewrite filter_In.
    unfold keepEffect. rewrite Z.ltb_lt. tauto. }
  split.
  - intros c Hx Hin. apply Hc in Hin. lra.
  - intros e Hx Hin. apply He in Hin. lra.
Qed.

Lemma end_of_tick_filter_witness :
  let g := busyGame [farCoin] [agedEffect 59] [farEnemy] in
  let g2 := setRandom (physicsPhase (incTicks g) noInput) 2%nat in
  let g' := filterPhase (collisionPhase g2) in
  mode g = GameModePlaying /\
  (exists c, In c (coins (collisionPhase g2)) /\ ~ In c (coins g')) /\
  (exists e, In e (enemies (collisionPhase g2)) /\ ~ In e (enemies g')) /\
  (exists e, In e (coinHitEffects (collisionPhase g2)) /\ ~ In e (coinHitEffects g')).
Proof.
  intros g g2 g'.
  destruct (end_of_tick_filter g g' noInput None eq_refl (busyGame_update _ _ _))
    as (g2' & _ & _ & _ & Hef & Hcx & Hex).
  assert (Hfar : fst (toScreen farPos) = 1320).
  { unfold toScreen, farPos. cbn [fst PolarCoordinates.r PolarCoordinates.theta].
    rewrite cos_0. unfold circleX, screenWidth. lra. }
  assert (Hmv : move (Mover.mk 1000 1) (wrapU64 (0 + 1)) farPos = farPos).
  { reflexivity. }
  split; [reflexivity |].
  destruct (collisionPhase_parts g2) as (Hco & _ & Hce & Hen & _).
  split; [| split].
  - eexists. split.
    + rewrite Hco, coinLoop_map. change (coins g2) with [farCoin].
      left. reflexivity.
    + apply Hcx. cbn [Coin.pos Coin.mover Coin.ticks farCoin].
      rewrite Hmv, Hfar. unfold screenWidth. lra.
  - rewrite Hen. change (enemies g2) with [farEnemy]. cbn [enemyLoop].
    destruct (collides _ _ (Enemy.pos farEnemy) (Enemy.r farEnemy)).
    + exists farEnemy. split; [left; reflexivity |].
      apply Hex. cbn [Enemy.pos farEnemy]. rewrite Hfar. unfold screenWidth. lra.
    + exists (advanceEnemy farEnemy). split; [left; reflexivity |].
      apply Hex. unfold advanceEnemy. cbv zeta.
      cbn [Enemy.pos Enemy.mover Enemy.ticks farEnemy].
      rewrite Hmv, Hfar. unfold screenWidth. lra.
  - exists (ageEffect (agedEffect 59)). split.
    + rewrite Hce. change (coins g2) with [farCoin].
      change (coinHitEffects g2) with [agedEffect 59].
      cbn [coinLoop]. unfold coinBody.
      destruct (collides _ _ _ _); cbn [snd fst map app]; left; reflexivity.
    + intros Hin. apply Hef in Hin as [_ Hlt]. vm_compute in Hlt. discriminate Hlt.
Defined.

(** ** C6 *)

Section Advance.
Context {S : Type} `{Rand S}.

Lemma coinLoop_advance (px rot : R) (cs : list Coin.t) :
  forall (sc : Z) (efs : list CoinHitEffect.t),
  map Coin.ticks (fst (fst (coinLoop px rot cs sc efs))) =
    map (fun c => wrapU64 (Coin.ticks c + 1)) cs /\
  map Coin.pos (fst (fst (coinLoop px rot cs sc efs))) =
    map (fun c => move (Coin.mover c) (wrapU64 (Coin.ticks c + 1)) (Coin.pos c)) cs /\
  exists news, snd (coinLoop px rot cs sc efs) = efs ++ news.
Proof.
  induction cs as [| c cs IH]; intros sc efs.
  - cbn. split; [reflexivity |]. split; [reflexivity |].
    exists []. now rewrite app_nil_r.
  - cbn [coinLoop].
    assert (Hb : exists sc1 efs1 news1,
               coinBody px rot c sc efs =
               (Coin.mk (wrapU64 (Coin.ticks c + 1))
                  (move (Coin.mover c) (wrapU64 (Coin.ticks c + 1)) (Coin.pos c))
                  (Coin.mover c) (Coin.r c)
                  (Coin.hit c || collides px rot (Coin.pos c) (Coin.r c)),
                sc1, efs1) /\ efs1 = efs ++ news1).
    { unfold coinBody. destruct (collides px rot (Coin.pos c) (Coin.r c)); cbn.
      - do 3 eexists. rewrite orb_true_r. split; reflexivity.
      - do 3 eexists. rewrite orb_false_r. split; [reflexivity |].
        now rewrite app_nil_r. }
    destruct Hb as (sc1 & efs1 & news1 & -> & ->).
    destruct (IH sc1 (efs ++ news1)) as (Ht & Hp & news2 & Hn).
    destruct (coinLoop px rot cs sc1 (efs ++ news1)) as [[rest sc2] efs2].
    cbn in Ht, Hp, Hn |- *. rewrite Ht, Hp.
    split; [reflexivity |]. split; [reflexivity |].
    exists (news1 ++ news2). rewrite Hn. now rewrite <- app_assoc.
Qed.

Lemma enemyLoop_advance (px rot : R) (es : list Enemy.t) :
  exists k, (k <= length es)%nat /\
    fst (enemyLoop px rot es) = map advanceEnemy (firstn k es) ++ skipn k es /\
    (forall j e, (j < k)%nat -> nth_error es j = Some e ->
       collides px rot (Enemy.pos e) (Enemy.r e) = false) /\
    ((k < length es)%nat -> exists e, nth_error es k = Some e /\
       collides px rot (Enemy.pos e) (Enemy.r e) = true) /\
    (k = length es -> snd (enemyLoop px rot es) = false).
Proof.
  induction es as [| e es IH].
  - exists O. cbn. repeat split; intros; lia.
  - cbn [enemyLoop].
    destruct (collides px rot (Enemy.pos e) (Enemy.r e)) eqn:Hc.
    + exists O. cbn. repeat split; intros; try lia.
      exists e. split; [reflexivity | exact Hc].
    + destruct IH as (k & Hk & Hl & Hb & Hh & Hn).
      destruct (enemyLoop px rot es) as [rest over].
      exists (Datatypes.S k). cbn in Hl, Hn |- *. rewrite Hl.
      split; [lia |]. split; [reflexivity |].
      split; [| split].
      * intros [| j] e' Hj Hn'; cbn in Hn'.
        -- injection Hn' as <-. exact Hc.
        -- apply (Hb j); [lia | exact Hn'].
      * intros Hk'. apply Hh. lia.
      * intros Hk'. apply Hn. lia.
Qed.

End Advance.

(** Claim C6 as stated, on the collision phase (lines 313-364): every coin
    and every enemy is aged by one tick, also on a tick that ends the game.
    It fails with the bob on an enemy: [break] leaves that enemy unaged. *)
Lemma entities_advance_counterexample :
  ~ (forall g : Game nat, mode g = GameModePlaying ->
       map Coin.ticks (coins (collisionPhase g)) =
         map (fun c => wrapU64 (Coin.ticks c + 1)) (coins g) /\
       enemies (collisionPhase g) = map advanceEnemy (enemies g)).
Proof.
  intros Hall.
  destruct (Hall (playingGame 0 0 [] [enemyAtCenter]) eq_refl) as [_ He].
  destruct (collisionPhase_parts (playingGame 0 0 [] [enemyAtCenter]))
    as (_ & _ & _ & Hen & _).
  rewrite Hen in He. cbn [pendulumX pendulumRotation enemies playingGame] in He.
  cbn [enemyLoop] in He.
  rewrite (collides_same_point 0 0 (Enemy.pos enemyAtCenter) (Enemy.r enemyAtCenter))
    in He by (cbn; lra || ring).
  cbn in He. injection He as Ht. cbv in Ht. discriminate.
Qed.

(** Claim C6, as the code does it: the collision phase ages every coin by
    one tick and applies its mover, ages every effect (those of this tick's
    hits included); the enemies before the first enemy hit are aged and
    moved, and when an enemy hit ends the game ([break]), that enemy and
    the ones after it keep their age and position. *)
Theorem entities_advance {S : Type} `{Rand S} (g : Game S) :
  let px := pendulumX g in
  let rot := pendulumRotation g in
  let g' := collisionPhase g in
  map Coin.ticks (coins g') = map (fun c => wrapU64 (Coin.ticks c + 1)) (coins g) /\
  map Coin.pos (coins g') =
    map (fun c => move (Coin.mover c) (wrapU64 (Coin.ticks c + 1)) (Coin.pos c))
      (coins g) /\
  (exists news, coinHitEffects g' = map ageEffect (coinHitEffects g ++ news)) /\
  (exists k, (k <= length (enemies g))%nat /\
     enemies g' = map advanceEnemy (firstn k (enemies g)) ++ skipn k (enemies g) /\
     (forall j e, (j < k)%nat -> nth_error (enemies g) j = Some e ->
        collides px rot (Enemy.pos e) (Enemy.r e) = false) /\
     ((k < length (enemies g))%nat ->
        (exists e, nth_error (enemies g) k = Some e /\
           collides px rot (Enemy.pos e) (Enemy.r e) = true) /\
        mode g' = GameModeGameOver) /\
     (k = length (enemies g) -> mode g' = mode g)).
Proof.
  intros px rot g'.
  destruct (collisionPhase_parts g) as (Hc & _ & Hef & Hen & Hm).
  destruct (coinLoop_advance px rot (coins g) (score g) (coinHitEffects g))
    as (Ht & Hp & news & Hn).
  split; [unfold g'; rewrite Hc; exact Ht |].
  split; [unfold g'; rewrite Hc; exact Hp |].
  split; [exists news; unfold g'; rewrite Hef, <- Hn; reflexivity |].
  destruct (enemyLoop_advance px rot (enemies g)) as (k & Hk & Hl & Hb & Hh & Hnn).
  exists k. split; [exact Hk |].
  split; [unfold g'; rewrite Hen; exact Hl |].
  split; [exact Hb |].
  assert (Ho : snd (enemyLoop px rot (enemies g)) =
               existsb (fun e => collides px rot (Enemy.pos e) (Enemy.r e)) (enemies g))
    by apply enemyLoop_over.
  split.
  - intros Hlt. destruct (Hh Hlt) as (e & Hne & Hce).
    split; [exists e; split; assumption |].
    unfold g'. rewrite Hm. fold px rot. rewrite Ho.
    replace (existsb _ (enemies g)) with true; [reflexivity |].
    symmetry. apply existsb_exists. exists e.
    split; [eapply nth_error_In; exact Hne | exact Hce].
  - intros Heq. unfold g'. rewrite Hm. fold px rot. rewrite (Hnn Heq). reflexivity.
Qed.

(** ** C9 *)

Section Determinism.
Context {S : Type} `{Rand S}.

Lemma sampleY_det (s : S) (y1 : R) (s1 : S) :
  sampleY s y1 s1 -> forall y2 s2, sampleY s y2 s2 -> y1 = y2 /\ s1 = s2.
Proof.
  induction 1 as [s f s' Hf Hok | s f s' y s'' Hf Hno Hrest IH];
    intros y2 s2 H2; inversion H2 as [t f2 t' Hf2 Hok2 | t f2 t' y' t'' Hf2 Hno2 Hrest2];
    subst; rewrite Hf in Hf2; injection Hf2 as <- <-.
  - split; reflexivity.
  - contradiction.
  - contradiction.
  - exact (IH _ _ Hrest2).
Qed.

Lemma spawnStep_det (g g1 g2 : Game S) (e1 e2 : option SpawnEvent) :
  spawnStep g g1 e1 -> spawnStep g g2 e2 -> g1 = g2 /\ e1 = e2.
Proof.
  intros H1 H2.
  inversion H1 as [ga n s1 Hi Hr | ga n s1 m s2 y s3 Hi Hr Hi2 Hy]; subst;
  inversion H2 as [gb n' t1 Hi' Hr' | gb n' t1 m' t2 y' t3 Hi' Hr' Hi2' Hy']; subst;
  rewrite Hi in Hi'; injection Hi' as <- <-; try contradiction.
  - split; reflexivity.
  - rewrite Hi2 in Hi2'. injection Hi2' as <- <-.
    destruct (sampleY_det _ _ _ Hy _ _ Hy') as [<- <-].
    split; reflexivity.
Qed.

Lemma update_det (g g1 g2 : Game S) (i1 i2 : Input) (e1 e2 : option SpawnEvent) :
  fixedRandomSeed g <> 0%Z -> touches i1 = touches i2 ->
  update g i1 g1 e1 -> update g i2 g2 e2 -> g1 = g2 /\ e1 = e2.
Proof.
  unfold touches. intros Hseed Ht H1 H2. injection Ht as Htc Hrl.
  inversion H1 as [ga ia Hm | ga ia ga2 ea Hm Hs | ga ia Hm]; subst;
  inversion H2 as [gb ib Hm' | gb ib gb2 eb Hm' Hs' | gb ib Hm']; subst;
  try congruence.
  - unfold titleStep. rewrite Htc. split; reflexivity.
  - assert (Hp : physicsPhase (incTicks g) i1 = physicsPhase (incTicks g) i2)
      by (unfold physicsPhase, updateHold; rewrite Htc, Hrl; reflexivity).
    rewrite Hp in Hs.
    destruct (spawnStep_det _ _ _ _ _ Hs Hs') as [<- <-].
    split; reflexivity.
  - unfold gameOverStep. rewrite Htc. split; [| reflexivity].
    destruct (_ && justTouched i2); [| reflexivity].
    unfold initialize, seedOf. cbn [fixedRandomSeed incTicks].
    apply Z.eqb_neq in Hseed. rewrite Hseed. reflexivity.
Qed.

Lemma update_seed (g g' : Game S) (i : Input) (e : option SpawnEvent) :
  update g i g' e -> fixedRandomSeed g' = fixedRandomSeed g.
Proof.
  intros Hu. inversion Hu as [ga ia Hm | ga ia ga2 ea Hm Hs | ga ia Hm]; subst.
  - unfold titleStep. destruct (justTouched i); reflexivity.
  - destruct (spawnStep_fields _ _ _ Hs) as (_ & _ & _ & _ & _ & _ & _ & Hf).
    destruct (collisionPhase_pendulum ga2) as (_ & _ & _ & Hf').
    cbn [filterPhase fixedRandomSeed]. rewrite Hf', Hf. unfold physicsPhase. destruct (pendulumStep _ _ _ _) as [[? ?] ?]. reflexivity.
  - unfold gameOverStep. destruct (_ && justTouched i); [| reflexivity].
    unfold initialize. destruct (drawSky _ _). reflexivity.
Qed.

Lemma run_det (ins1 : list Input) :
  forall (g g1 g2 : Game S) (ins2 : list Input) evs1 evs2,
  fixedRandomSeed g <> 0%Z -> map touches ins1 = map touches ins2 ->
  run g ins1 g1 evs1 -> run g ins2 g2 evs2 -> g1 = g2 /\ evs1 = evs2.
Proof.
  induction ins1 as [| i1 ins1 IH]; intros g g1 g2 ins2 evs1 evs2 Hs Hm R1 R2.
  - destruct ins2; [| discriminate].
    inversion R1; subst. inversion R2; subst. split; reflexivity.
  - destruct ins2 as [| i2 ins2]; [discriminate |].
    cbn [map] in Hm.
    assert (Ht : touches i1 = touches i2) by congruence.
    assert (Hm' : map touches ins1 = map touches ins2) by congruence.
    clear Hm; rename Hm' into Hm.
    inversion R1 as [| ga ia isa ga1 ea ga2 evsa Hu1 Hr1]; subst.
    inversion R2 as [| gb ib isb gb1 eb gb2 evsb Hu2 Hr2]; subst.
    destruct (update_det _ _ _ _ _ _ _ Hs Ht Hu1 Hu2) as [<- <-].
    assert (Hs' : fixedRandomSeed ga1 <> 0%Z) by (rewrite (update_seed _ _ _ _ Hu1); exact Hs).
    destruct (IH _ _ _ _ _ _ Hs' Hm Hr1 Hr2) as [<- <-].
    split; reflexivity.
Qed.

Lemma start_clock (s1 s2 : S) (seed c1 c2 : Z) :
  seed <> 0%Z -> start s1 seed c1 = start s2 seed c2.
Proof.
  intros Hs. unfold start, initialize, seedOf. cbn [fixedRandomSeed].
  apply Z.eqb_neq in Hs. rewrite Hs. reflexivity.
Qed.

End Determinism.

(** Claim C9: two runs started ([main], then [initialize]) with the same
    fixed seed override, fed the same touch inputs, produce the same spawn
    events (trigger tick, side, point and entities) and end in the same
    state, whatever the wall clock reads in either run.  The override is
    set when it is non zero: the code reads a zero override as absent and
    seeds from the clock. *)
Theorem same_seed_same_spawns {S : Type} `{Rand S} (s1 s2 : S)
  (seed clock1 clock2 : Z) (ins1 ins2 : list Input) (g1 g2 : Game S)
  (evs1 evs2 : list (option SpawnEvent)) :
  seed <> 0%Z ->
  map (fun i => (justTouched i, justReleased i)) ins1 =
    map (fun i => (justTouched i, justReleased i)) ins2 ->
  run (start s1 seed clock1) ins1 g1 evs1 ->
  run (start s2 seed clock2) ins2 g2 evs2 ->
  evs1 = evs2 /\ g1 = g2.
Proof.
  intros Hs Hm R1 R2.
  rewrite (start_clock s1 s2 seed clock1 clock2 Hs) in R1.
  assert (Hf : fixedRandomSeed (start s2 seed clock2) <> 0%Z).
  { unfold start, initialize. destruct (drawSky _ _). exact Hs. }
  destruct (run_det ins1 _ _ _ ins2 _ _ Hf Hm R1 R2) as [-> ->].
  split; reflexivity.
Qed.

Lemma same_seed_same_spawns_witness :
  exists g1 g2 ev1 ev2,
    run (start 0%nat 120 5) [touchIn; noInput] g1 [None; Some ev1] /\
    run (start 0%nat 120 7) [touchIn; noInput] g2 [None; Some ev2] /\
    ev1 = ev2 /\ g1 = g2.
Proof.
  destruct (spawn_run 5) as (g1 & ev1 & R1).
  destruct (spawn_run 7) as (g2 & ev2 & R2).
  destruct (same_seed_same_spawns 0%nat 0%nat 120 5 7 _ _ g1 g2 _ _
              ltac:(lia) eq_refl R1 R2) as [He Hg].
  exists g1, g2, ev1, ev2.
  split; [exact R1 |]. split; [exact R2 |].
  split; [congruence | exact Hg].
Defined.

(** ** C10 *)

Lemma wrapI64_range (z : Z) : (- 2 ^ 63 <= wrapI64 z < 2 ^ 63)%Z.
Proof.
  unfold wrapI64, wrapU64.
  pose proof (Z.mod_pos_bound z (2 ^ 64) ltac:(lia)) as Hb.
  destruct (Z.ltb_spec (z mod 2 ^ 64) (2 ^ 63)); lia.
Qed.

Lemma wrapI64_id (z : Z) : (- 2 ^ 63 <= z < 2 ^ 63)%Z -> wrapI64 z = z.
Proof.
  intros Hz. unfold wrapI64, wrapU64.
  destruct (Z.leb_spec 0 z) as [Hp | Hn].
  - rewrite Z.mod_small by lia.
    destruct (Z.ltb_spec z (2 ^ 63)); lia.
  - assert (Hm : (z mod 2 ^ 64 = z + 2 ^ 64)%Z).
    { rewrite <- (Z.mod_small (z + 2 ^ 64) (2 ^ 64)) by lia.
      rewrite Zplus_mod, Z_mod_same_full, Z.add_0_r, Z.mod_mod by lia.
      reflexivity. }
    rewrite Hm. destruct (Z.ltb_spec (z + 2 ^ 64) (2 ^ 63)); lia.
Qed.

Lemma wrapI64_mod (a : Z) : (wrapI64 a mod 2 ^ 64 = a mod 2 ^ 64)%Z.
Proof.
  unfold wrapI64, wrapU64. destruct (Z.ltb _ _).
  - apply Z.mod_mod. lia.
  - rewrite Zminus_mod, Z.mod_mod, Z_mod_same_full, Z.sub_0_r, Z.mod_mod by lia.
    reflexivity.
Qed.

Lemma wrapI64_add_l (a b : Z) : wrapI64 (wrapI64 a + b) = wrapI64 (a + b).
Proof.
  assert (Hm : ((wrapI64 a + b) mod 2 ^ 64 = (a + b) mod 2 ^ 64)%Z).
  { rewrite Zplus_mod, wrapI64_mod, <- Zplus_mod. reflexivity. }
  unfold wrapI64 at 1 3. unfold wrapU64. rewrite Hm. reflexivity.
Qed.

Lemma gainOf_isGain (cr : R) : isGain (gainOf cr).
Proof. unfold isGain, gainOf. destruct (Rleb cr 5); [| destruct (Rleb cr 7)]; auto. Qed.

Lemma gains_nonneg (gains : list Z) :
  Forall isGain gains -> (0 <= fold_right Z.add 0%Z gains)%Z.
Proof.
  induction 1 as [| z zs Hz _ IH]; cbn; [lia |].
  unfold isGain in Hz. lia.
Qed.

Lemma coinBody_score (px rot : R) (c : Coin.t) (sc : Z) (efs : list CoinHitEffect.t) :
  snd (fst (coinBody px rot c sc efs)) =
  (if collides px rot (Coin.pos c) (Coin.r c) then wrapI64 (sc + gainOf (Coin.r c))
   else sc).
Proof. unfold coinBody. destruct (collides _ _ _ _); reflexivity. Qed.

Lemma coinLoop_score (px rot : R) (cs : list Coin.t) :
  forall (sc : Z) (efs : list CoinHitEffect.t), (- 2 ^ 63 <= sc < 2 ^ 63)%Z ->
  exists gains, Forall isGain gains /\
    snd (fst (coinLoop px rot cs sc efs)) = wrapI64 (sc + fold_right Z.add 0%Z gains).
Proof.
  induction cs as [| c cs IH]; intros sc efs Hr.
  - exists []. split; [constructor |]. cbn. rewrite Z.add_0_r, wrapI64_id; auto.
  - cbn [coinLoop].
    pose proof (coinBody_score px rot c sc efs) as Hb.
    destruct (coinBody px rot c sc efs) as [[c' sc1] efs1]. cbn in Hb.
    assert (Hr1 : (- 2 ^ 63 <= sc1 < 2 ^ 63)%Z).
    { destruct (collides _ _ _ _); subst; [apply wrapI64_range | exact Hr]. }
    destruct (IH sc1 efs1 Hr1) as (gains & Hg & Hs).
    destruct (coinLoop px rot cs sc1 efs1) as [[rest sc2] efs2]. cbn in Hs |- *.
    destruct (collides px rot (Coin.pos c) (Coin.r c)); subst.
    + exists (gainOf (Coin.r c) :: gains).
      split; [constructor; [apply gainOf_isGain | exact Hg] |].
      rewrite wrapI64_add_l. cbn. f_equal. lia.
    + exists gains. split; [assumption | reflexivity].
Qed.

Lemma coinLoop_account (px rot : R) (cs : list Coin.t) :
  forall (sc : Z) (efs : list CoinHitEffect.t),
  length (fst (fst (coinLoop px rot cs sc efs))) = length cs /\
  snd (coinLoop px rot cs sc efs) =
    efs ++ map hitEffect
             (filter (fun c => collides px rot (Coin.pos c) (Coin.r c)) cs) /\
  ((- 2 ^ 63 <= sc < 2 ^ 63)%Z ->
   snd (fst (coinLoop px rot cs sc efs)) =
   wrapI64 (sc + fold_right Z.add 0%Z
                   (map (fun c => gainOf (Coin.r c))
                      (filter (fun c => collides px rot (Coin.pos c) (Coin.r c)) cs)))).
Proof.
  induction cs as [| c cs IH]; intros sc efs.
  - cbn. split; [reflexivity |]. split; [now rewrite app_nil_r |].
    intros Hr. rewrite Z.add_0_r, wrapI64_id by exact Hr. reflexivity.
  - cbn [coinLoop filter].
    assert (Hb : snd (fst (coinBody px rot c sc efs)) =
                   (if collides px rot (Coin.pos c) (Coin.r c)
                    then wrapI64 (sc + gainOf (Coin.r c)) else sc) /\
                 snd (coinBody px rot c sc efs) =
                   (if collides px rot (Coin.pos c) (Coin.r c)
                    then efs ++ [hitEffect c] else efs)).
    { unfold coinBody. destruct (collides _ _ _ _); split; reflexivity. }
    destruct (coinBody px rot c sc efs) as [[c' sc1] efs1].
    cbn [fst snd] in Hb. destruct Hb as [Hs He].
    destruct (IH sc1 efs1) as (Hl & Hef & Hsc).
    destruct (coinLoop px rot cs sc1 efs1) as [[rest sc2] efs2].
    cbn [fst snd length] in Hl, Hef, Hsc |- *.
    destruct (collides px rot (Coin.pos c) (Coin.r c)); subst sc1 efs1;
      cbn [map fold_right].
    + split; [now rewrite Hl |]. split; [rewrite Hef, <- app_assoc; reflexivity |].
      intros Hr. rewrite Hsc by apply wrapI64_range. rewrite wrapI64_add_l.
      f_equal. lia.
    + split; [now rewrite Hl |]. split; [exact Hef | exact Hsc].
Qed.

(** Claim C10 as stated: no Playing tick decreases the score.  It fails at
    score [2^63 - 1] with a coin under the bob: the [int] sum wraps below
    zero. *)
Lemma score_monotone_counterexample :
  ~ (forall (g g' : Game nat) (i : Input) (ev : option SpawnEvent),
       update g i g' ev -> mode g = GameModePlaying -> (score g <= score g')%Z).
Proof.
  intros Hall.
  set (g := playingGame 1 (2 ^ 63 - 1) [coinAtAmplitude] []).
  set (g2 := setRandom (physicsPhase (incTicks g) noInput) 2%nat).
  specialize (Hall g (filterPhase (collisionPhase g2)) noInput None
                (playingGame_update _ _ _) eq_refl).
  cbn [filterPhase score] in Hall.
  destruct (collisionPhase_parts g2) as (_ & Hs & _).
  rewrite Hs in Hall. clear Hs.
  change (pendulumX g2) with pendulumAmplitude in Hall.
  change (pendulumRotation g2) with (rotate (updateHold noInput false) 0) in Hall.
  change (coins g2) with [coinAtAmplitude] in Hall.
  change (coinHitEffects g2) with (@nil CoinHitEffect.t) in Hall.
  change (score g2) with (2 ^ 63 - 1)%Z in Hall.
  change (score g) with (2 ^ 63 - 1)%Z in Hall.
  cbn [rotate updateHold noInput justTouched justReleased] in Hall.
  cbn [coinLoop] in Hall.
  pose proof (coinBody_score pendulumAmplitude 0 coinAtAmplitude (2 ^ 63 - 1) [])
    as Hb.
  rewrite (collides_same_point _ _ _ _) in Hb
    by (unfold pendulumAmplitude; cbn; lra || reflexivity).
  cbn [Coin.r coinAtAmplitude] in Hb. rewrite gainOf_10 in Hb.
  destruct (coinBody _ _ _ _ _) as [[c' sc'] e']. cbn in Hb, Hall.
  subst sc'. revert Hall. vm_compute. intros Hle. apply Hle. reflexivity.
Qed.

(** Claim C10, as the code does it: a tick either is the reinitialization
    of a finished game ([initialize]: score 0, no coins, effects or enemies,
    pendulum at rest and unrotated), or leaves the score as it is outside
    Playing, or, on a Playing tick, adds to it the gains (100, 300 or 1000
    each) of exactly the coins under the bob, those for which the coin loop
    appends an effect, with Go's wrapping [int] addition; so the score does
    not decrease as long as the sum stays below [2^63]. *)
Theorem score_only_grows_by_hits {S : Type} `{Rand S} (g g' : Game S) (i : Input)
  (ev : option SpawnEvent) :
  (- 2 ^ 63 <= score g < 2 ^ 63)%Z ->
  update g i g' ev ->
  (mode g = GameModeGameOver /\ mode g' = GameModeTitle /\ score g' = 0%Z /\
   coins g' = [] /\ coinHitEffects g' = [] /\ enemies g' = [] /\
   pendulumX g' = 0 /\ pendulumVx g' = 0 /\ pendulumRotation g' = 0 /\
   hold g' = false /\ lastPendulumTicks g' = 0%Z) \/
  (mode g <> GameModePlaying /\ score g' = score g) \/
  (mode g = GameModePlaying /\
   exists g2, spawnStep (physicsPhase (incTicks g) i) g2 ev /\
   let hits := filter (fun c => collides (pendulumX g2) (pendulumRotation g2)
                                  (Coin.pos c) (Coin.r c)) (coins g2) in
   let gains := map (fun c => gainOf (Coin.r c)) hits in
   Forall isGain gains /\
   coinHitEffects (collisionPhase g2) =
     map ageEffect (coinHitEffects g2 ++ map hitEffect hits) /\
   score g' = wrapI64 (score g + fold_right Z.add 0%Z gains) /\
   (score g + fold_right Z.add 0%Z gains < 2 ^ 63 -> score g <= score g')%Z).
Proof.
  intros Hr Hu.
  inversion Hu as [ga ia Hm | ga ia g2 ea Hm Hs | ga ia Hm]; subst.
  - right. left. split; [rewrite Hm; discriminate |].
    unfold titleStep. destruct (justTouched i); reflexivity.
  - right. right. split; [exact Hm |]. exists g2. split; [exact Hs |]. cbv zeta.
    destruct (collisionPhase_parts g2) as (_ & Hsc & Hce & _).
    destruct (spawnStep_fields _ _ _ Hs) as (_ & _ & _ & Hs2 & _).
    assert (Hp : score (physicsPhase (incTicks g) i) = score g).
    { unfold physicsPhase. destruct (pendulumStep _ _ _ _) as [[? ?] ?]. reflexivity. }
    destruct (coinLoop_account (pendulumX g2) (pendulumRotation g2) (coins g2)
                (score g2) (coinHitEffects g2)) as (_ & Hef & Hsum).
    rewrite Hs2, Hp in Hsum. specialize (Hsum Hr).
    assert (Hg : Forall isGain
                   (map (fun c => gainOf (Coin.r c))
                      (filter (fun c => collides (pendulumX g2) (pendulumRotation g2)
                                          (Coin.pos c) (Coin.r c)) (coins g2)))).
    { apply Forall_forall. intros z Hz. apply in_map_iff in Hz as (c & <- & _).
      apply gainOf_isGain. }
    split; [exact Hg |].
    split; [rewrite Hce, Hef; reflexivity |].
    cbn [filterPhase score]. rewrite Hsc, Hs2, Hp, Hsum.
    split; [reflexivity |].
    intros Hlt. pose proof (gains_nonneg _ Hg). rewrite wrapI64_id; lia.
  - destruct (Z.ltb 60 (ticksFromModeStart (incTicks g)) && justTouched i) eqn:E.
    + left. unfold gameOverStep. rewrite E. unfold initialize.
      destruct (drawSky _ _). cbn. repeat split; exact Hm.
    + right. left. split; [rewrite Hm; discriminate |].
      unfold gameOverStep. rewrite E. reflexivity.
Qed.

Lemma score_only_grows_by_hits_witness :
  let g := playingGame 1 0 [coinAtAmplitude] [] in
  let g2 := setRandom (physicsPhase (incTicks g) noInput) 2%nat in
  score (filterPhase (collisionPhase g2)) = 1000%Z /\
  map CoinHitEffect.gain (coinHitEffects (collisionPhase g2)) = [1000%Z].
Proof.
  intros g g2.
  assert (Hr : (- 2 ^ 63 <= score g < 2 ^ 63)%Z) by (cbn; lia).
  assert (Hs : spawnStep (physicsPhase (incTicks g) noInput) g2 None).
  { apply (spawnStep_none _ 1%Z 2%nat); [reflexivity | cbv; discriminate]. }
  destruct (score_only_grows_by_hits _ _ noInput None Hr (playingGame_update _ _ _))
    as [(Hm & _) | [(Hm & _) | (_ & g2' & Hs' & Hall)]].
  - discriminate Hm.
  - exfalso. apply Hm. reflexivity.
  - destruct (spawnStep_det _ _ _ _ _ Hs' Hs) as [-> _].
    cbv zeta in Hall. destruct Hall as (_ & Hef & Hsc & _).
    change (pendulumX g2) with pendulumAmplitude in Hef, Hsc.
    change (pendulumRotation g2) with (rotate (updateHold noInput false) 0) in Hef, Hsc.
    change (coins g2) with [coinAtAmplitude] in Hef, Hsc.
    change (coinHitEffects g2) with (@nil CoinHitEffect.t) in Hef.
    change (score g) with 0%Z in Hsc.
    cbn [rotate updateHold noInput justTouched justReleased filter] in Hef, Hsc.
    rewrite (collides_same_point _ _ _ _) in Hef, Hsc
      by (unfold pendulumAmplitude; cbn; lra || reflexivity).
    cbn [map fold_right Coin.r coinAtAmplitude app] in Hef, Hsc.
    rewrite gainOf_10 in Hsc.
    split; [etransitivity; [exact Hsc | reflexivity] |].
    rewrite Hef.
    cbn [map ageEffect hitEffect CoinHitEffect.gain Coin.r coinAtAmplitude].
    rewrite gainOf_10. reflexivity.
Defined.

(** * Further properties of the code *)

(** ** Helper lemmas *)

Lemma screen_roundtrip (x y : R) : toScreen (fromScreen x y) = (x, y).
Proof.
  unfold toScreen, fromScreen. simpl.
  set (x' := x - circleX). set (y' := (y - circleY) / circleVerticalScale).
  destruct (polar_of_cartesian x' y') as [Hx Hy].
  rewrite Hx, Hy. unfold x', y', circleVerticalScale.
  f_equal; field.
Qed.

Lemma move_screen (m : Mover.t) (t : Z) (pos : PolarCoordinates.t) :
  (0 <= t < 2 ^ 63)%Z -> (0 <= Mover.delay m < 2 ^ 63)%Z ->
  toScreen (move m t pos) =
  (if Z.ltb (Mover.delay m) t
   then (fst (toScreen pos) + Mover.delta m, snd (toScreen pos))
   else toScreen pos).
Proof.
  intros Ht Hd. unfold move.
  rewrite (wrapI64_id t) by lia.
  rewrite (wrapI64_id (t - Mover.delay m)) by lia.
  destruct (Z.ltb_spec 0 (t - Mover.delay m));
    destruct (Z.ltb_spec (Mover.delay m) t); try lia.
  - destruct (toScreen pos) as [x y]. exact (screen_roundtrip _ _).
  - reflexivity.
Qed.

Lemma move_still (m : Mover.t) (t : Z) (pos : PolarCoordinates.t) :
  (0 <= t < 2 ^ 63)%Z -> (0 <= Mover.delay m < 2 ^ 63)%Z ->
  (t <= Mover.delay m)%Z -> move m t pos = pos.
Proof.
  intros Ht Hd Hle. unfold move.
  rewrite (wrapI64_id t) by lia.
  rewrite (wrapI64_id (t - Mover.delay m)) by lia.
  destruct (Z.ltb_spec 0 (t - Mover.delay m)); [lia | reflexivity].
Qed.

Lemma sampleY_range {S : Type} `{Rand S} (s : S) (y : R) (s' : S) :
  (forall s0, 0 <= fst (Float64 s0) < 1) -> sampleY s y s' ->
  110 <= y < 440 /\ 30 < Rabs (y - circleY).
Proof.
  intros HF Hs. induction Hs as [s f s' Hf Hfar | s f s' y s'' _ _ _ IH]; [| exact IH].
  split; [| exact Hfar].
  specialize (HF s). rewrite Hf in HF. cbn [fst] in HF.
  unfold yOfDraw, screenHeight. lra.
Qed.

Lemma enemyLoop_length (px rot : R) (es : list Enemy.t) :
  length (fst (enemyLoop px rot es)) = length es.
Proof.
  induction es as [| e es IH]; cbn; [reflexivity |].
  destruct (collides px rot (Enemy.pos e) (Enemy.r e)); cbn; [reflexivity |].
  destruct (enemyLoop px rot es) as [rest over]. cbn in *. now rewrite IH.
Qed.

Section Reach.
Context {S : Type} `{Rand S}.

Lemma physicsPhase_fields (g : Game S) (i : Input) :
  pendulumX (physicsPhase g i) =
    fst (fst (pendulumStep (ticksFromModeStart g) (lastPendulumTicks g)
                (pendulumX g) (pendulumVx g))) /\
  pendulumVx (physicsPhase g i) =
    snd (fst (pendulumStep (ticksFromModeStart g) (lastPendulumTicks g)
                (pendulumX g) (pendulumVx g))) /\
  pendulumRotation (physicsPhase g i) =
    rotate (updateHold i (hold g)) (pendulumRotation g) /\
  mode (physicsPhase g i) = mode g /\
  ticksFromModeStart (physicsPhase g i) = ticksFromModeStart g /\
  coinHitEffects (physicsPhase g i) = coinHitEffects g.
Proof.
  unfold physicsPhase. destruct (pendulumStep _ _ _ _) as [[x vx] l].
  repeat split.
Qed.

Lemma spawnStep_ticks (g g2 : Game S) (ev : option SpawnEvent) :
  spawnStep g g2 ev -> ticksFromModeStart g2 = ticksFromModeStart g.
Proof. intros Hs; inversion Hs; subst; reflexivity. Qed.

Lemma collisionPhase_rest (g : Game S) :
  pendulumRotation (collisionPhase g) = pendulumRotation g /\
  ticksFromModeStart (collisionPhase g) =
    (if snd (enemyLoop (pendulumX g) (pendulumRotation g) (enemies g))
     then 0%Z else ticksFromModeStart g).
Proof.
  unfold collisionPhase.
  destruct (coinLoop _ _ _ _ _) as [[cs sc] efs].
  destruct (enemyLoop _ _ _) as [es over].
  destruct over; split; reflexivity.
Qed.

Lemma run_invariant (P : Game S -> Prop) :
  (forall g i g' ev, P g -> update g i g' ev -> P g') ->
  forall g ins g' evs, run g ins g' evs -> P g -> P g'.
Proof.
  intros Hstep g ins g' evs Hr. induction Hr as [g | g i ins g1 ev g2 evs Hu _ IH];
    [auto |]. intros Hg. apply IH. exact (Hstep _ _ _ _ Hg Hu).
Qed.

Lemma reachable_invariant (P : Game S -> Prop) :
  (forall s0 seed clock, P (start s0 seed clock)) ->
  (forall g i g' ev, P g -> update g i g' ev -> P g') ->
  forall g, reachable g -> P g.
Proof.
  intros H0 Hstep g (s0 & seed & clock & ins & evs & Hr).
  exact (run_invariant P Hstep _ _ _ _ Hr (H0 s0 seed clock)).
Qed.

Lemma start_fields (s0 : S) (seed clock : Z) :
  mode (start s0 seed clock) = GameModeTitle /\
  pendulumX (start s0 seed clock) = 0 /\
  pendulumVx (start s0 seed clock) = 0 /\
  pendulumRotation (start s0 seed clock) = 0 /\
  coinHitEffects (start s0 seed clock) = [].
Proof. unfold start, initialize. destruct (drawSky _ _). repeat split. Qed.

(** The rotation. *)

Lemma rotate_range (h : bool) (rot : R) :
  0 <= rot <= PI * 2 -> 0 <= rotate h rot <= PI * 2.
Proof.
  intros Hr. pose proof PI_RGT_0. unfold rotate. destruct h; [| exact Hr].
  cbv zeta. unfold Rltb.
  destruct (Rlt_dec (PI * 2) (rot + PI / 800)); cbv iota; lra.
Qed.

Lemma rotation_step (g : Game S) (i : Input) (g' : Game S) (ev : option SpawnEvent) :
  0 <= pendulumRotation g <= PI * 2 -> update g i g' ev ->
  0 <= pendulumRotation g' <= PI * 2.
Proof.
  intros Hr Hu. pose proof PI_RGT_0.
  inversion Hu as [g0 i0 Hm | g0 i0 g2 ev0 Hm Hs | g0 i0 Hm]; subst.
  - unfold titleStep. destruct (justTouched i); exact Hr.
  - destruct (spawnStep_fields _ _ _ Hs) as (_ & _ & _ & _ & Hr2 & _).
    destruct (collisionPhase_rest g2) as [Hrc _].
    destruct (physicsPhase_fields (incTicks g) i) as (_ & _ & Hrp & _).
    cbn [filterPhase pendulumRotation]. rewrite Hrc, Hr2, Hrp.
    apply rotate_range. exact Hr.
  - unfold gameOverStep. destruct (Z.ltb 60 _ && justTouched i).
    + unfold initialize. destruct (drawSky _ _). cbn [pendulumRotation]. lra.
    + exact Hr.
Qed.

Lemma rotation_reachable (g : Game S) :
  reachable g -> 0 <= pendulumRotation g <= PI * 2.
Proof.
  revert g.
  apply (reachable_invariant (fun g => 0 <= pendulumRotation g <= PI * 2));
    [| exact rotation_step].
  intros s0 seed clock. destruct (start_fields s0 seed clock) as (_ & _ & _ & -> & _).
  pose proof PI_RGT_0. lra.
Qed.

(** The pendulum. *)

Lemma pendulumStep_energy (t last : Z) (x vx : R) :
  pendulumEnergy (fst (fst (pendulumStep t last x vx)))
    (snd (fst (pendulumStep t last x vx))) = pendulumEnergy x vx \/
  (fst (fst (pendulumStep t last x vx)) = pendulumAmplitude /\
   snd (fst (pendulumStep t last x vx)) = 0).
Proof.
  unfold pendulumStep. destruct (Z.eqb _ 0); cbn [fst snd].
  - right. split; reflexivity.
  - left. unfold pendulumEnergy, pendulumK, pendulumLength. field.
Qed.

Lemma pendulumInv_step (g : Game S) (i : Input) (g' : Game S) (ev : option SpawnEvent) :
  pendulumInv g -> update g i g' ev -> pendulumInv g'.
Proof.
  intros Hinv Hu.
  inversion Hu as [g0 i0 Hm | g0 i0 g2 ev0 Hm Hs | g0 i0 Hm]; subst.
  - destruct Hinv as [[_ Hv] | [Hm' _]]; [| congruence].
    unfold titleStep. destruct (justTouched i).
    + right. cbn [setNextMode incTicks mode pendulumX pendulumVx].
      split; [discriminate |]. rewrite Hv. reflexivity.
    + left. cbn [incTicks mode pendulumVx]. split; [exact Hm | exact Hv].
  - destruct Hinv as [[Hm' _] | [_ HE]]; [congruence |].
    destruct (spawnStep_fields _ _ _ Hs) as (Hx2 & Hv2 & _ & _ & _ & Hmo2 & _).
    destruct (collisionPhase_pendulum g2) as (Hxc & Hvc & _).
    destruct (collisionPhase_parts g2) as (_ & _ & _ & _ & Hmc).
    destruct (physicsPhase_fields (incTicks g) i) as (Hxp & Hvp & _ & Hmp & _).
    right. cbn [filterPhase pendulumX pendulumVx mode].
    rewrite Hxc, Hvc, Hmc, Hmo2, Hmp, Hx2, Hv2, Hxp, Hvp.
    cbn [incTicks mode pendulumX pendulumVx ticksFromModeStart lastPendulumTicks].
    split.
    + rewrite Hm. match goal with |- context [if ?b then _ else _] => destruct b end;
      discriminate.
    + match goal with
      | |- pendulumEnergy (fst (fst (pendulumStep ?a ?b ?c ?d))) _ = _ =>
          destruct (pendulumStep_energy a b c d) as [He | [Hx Hv]]
      end.
      * rewrite He. exact HE.
      * rewrite Hx, Hv. reflexivity.
  - destruct Hinv as [[Hm' _] | [_ HE]]; [congruence |].
    unfold gameOverStep. destruct (Z.ltb 60 _ && justTouched i).
    + left. unfold initialize. destruct (drawSky _ _). split; reflexivity.
    + right. cbn [incTicks mode pendulumX pendulumVx]. rewrite Hm.
      split; [discriminate | exact HE].
Qed.

Lemma pendulumInv_reachable (g : Game S) : reachable g -> pendulumInv g.
Proof.
  revert g. apply (reachable_invariant pendulumInv); [| exact pendulumInv_step].
  intros s0 seed clock. left.
  destruct (start_fields s0 seed clock) as (Hm & _ & Hv & _).
  split; assumption.
Qed.

(** The coin-hit effects. *)

Lemma effectsYoung_step (g : Game S) (i : Input) (g' : Game S) (ev : option SpawnEvent) :
  effectsYoung g -> update g i g' ev -> effectsYoung g'.
Proof.
  unfold effectsYoung. intros Hy Hu.
  inversion Hu as [g0 i0 Hm | g0 i0 g2 ev0 Hm Hs | g0 i0 Hm]; subst.
  - unfold titleStep. destruct (justTouched i); exact Hy.
  - destruct (spawnStep_fields _ _ _ Hs) as (_ & _ & _ & _ & _ & _ & He2 & _).
    destruct (collisionPhase_parts g2) as (_ & _ & Hec & _).
    destruct (physicsPhase_fields (incTicks g) i) as (_ & _ & _ & _ & _ & Hep).
    cbn [filterPhase coinHitEffects]. rewrite Hec.
    destruct (coinLoop_account (pendulumX g2) (pendulumRotation g2) (coins g2)
                (score g2) (coinHitEffects g2)) as (_ & Hef & _).
    rewrite Hef, He2, Hep. cbn [incTicks coinHitEffects].
    apply Forall_forall. intros e Hin.
    apply filter_In in Hin as [Hin Hk].
    apply in_map_iff in Hin as (e0 & <- & Hin0).
    unfold keepEffect, ageEffect in Hk |- *. cbn [CoinHitEffect.ticks] in Hk |- *.
    apply Z.ltb_lt in Hk.
    apply in_app_or in Hin0 as [Hold | Hnew].
    + rewrite Forall_forall in Hy. specialize (Hy e0 Hold).
      unfold wrapU64 in Hk |- *. rewrite Z.mod_small in Hk |- * by lia. lia.
    + apply in_map_iff in Hnew as (c & <- & _).
      cbn [hitEffect CoinHitEffect.ticks] in Hk |- *. vm_compute. split; discriminate.
  - unfold gameOverStep. destruct (Z.ltb 60 _ && justTouched i).
    + unfold initialize. destruct (drawSky _ _). constructor.
    + exact Hy.
Qed.

Lemma effectsYoung_reachable (g : Game S) : reachable g -> effectsYoung g.
Proof.
  revert g. apply (reachable_invariant effectsYoung); [| exact effectsYoung_step].
  intros s0 seed clock. unfold effectsYoung.
  destruct (start_fields s0 seed clock) as (_ & _ & _ & _ & ->). constructor.
Qed.

(** The sky. *)

Lemma drawSky_stars (n : nat) :
  (forall s0, 0 <= fst (Float64 s0) < 1) ->
  forall s : S,
  length (fst (drawSky n s)) = n /\
  Forall (fun st : Star => let '(x, y, r) := st in
            0 <= x < skyImgLength /\ 0 <= y < skyImgLength /\ 1 / 2 <= r)
    (fst (drawSky n s)).
Proof.
  intros HF. assert (HL : 768 <= skyImgLength).
  { unfold skyImgLength. pose proof (Rmax_l screenWidth screenHeight).
    unfold screenWidth in *. lra. }
  induction n as [| n IH]; intros s; cbn [drawSky].
  - split; [reflexivity | constructor].
  - pose proof (HF s) as H1.
    destruct (Float64 s) as [fx s1]. cbn [fst] in H1.
    pose proof (HF s1) as H2.
    destruct (Float64 s1) as [fy s2]. cbn [fst] in H2.
    destruct (NormFloat64 s2) as [fr s3].
    destruct (IH s3) as [Hl Hf].
    destruct (drawSky n s3) as [rest s4]. cbn [fst length] in Hl, Hf |- *.
    split; [now rewrite Hl |]. constructor; [| exact Hf].
    pose proof (Rmax_r (1 + 5 / 10 * fr) (5 / 10)).
    split; [| split]; [nra | nra | lra].
Qed.

End Reach.


Lemma iter_advanceEnemy_mover (e : Enemy.t) (n : nat) :
  Enemy.mover (Nat.iter n advanceEnemy e) = Enemy.mover e.
Proof.
  induction n as [| n IH]; [reflexivity |].
  change (Nat.iter (S n) advanceEnemy e) with (advanceEnemy (Nat.iter n advanceEnemy e)).
  exact IH.
Qed.

Lemma collides_far_x (px rot x y er : R) :
  (pendulumR + er) ^ 2 <= (px * cos rot - (x - circleX)) ^ 2 ->
  collides px rot (fromScreen x y) er = false.
Proof.
  intros Hd. destruct (collides px rot (fromScreen x y) er) eqn:E; [| reflexivity].
  apply collides_iff in E. unfold fromScreen in E. cbv zeta in E.
  cbn [PolarCoordinates.r PolarCoordinates.theta] in E.
  destruct (polar_of_cartesian (x - circleX) ((y - circleY) / circleVerticalScale))
    as [Hc Hs].
  rewrite Hc, Hs in E.
  pose proof (pow2_ge_0 (px * sin rot - (y - circleY) / circleVerticalScale)). lra.
Qed.

(** ** Extra properties *)

(** Mover.move (lines 85-90): an entity moves along a horizontal line of
    the screen.  On a tick [t] past the mover's delay the screen point is
    shifted by [delta] horizontally and keeps its height; up to the delay
    the position is left as it is (no wrap-around: [t] and the delay below
    [2^63]). *)
Theorem mover_shifts_horizontally (m : Mover.t) (t : Z) (pos : PolarCoordinates.t) :
  (0 <= t < 2 ^ 63)%Z -> (0 <= Mover.delay m < 2 ^ 63)%Z ->
  ((Mover.delay m < t)%Z ->
   toScreen (move m t pos) =
   (fst (toScreen pos) + Mover.delta m, snd (toScreen pos))) /\
  ((t <= Mover.delay m)%Z -> move m t pos = pos).
Proof.
  intros Ht Hd. split.
  - intros Hlt. rewrite move_screen by assumption.
    destruct (Z.ltb_spec (Mover.delay m) t); [reflexivity | lia].
  - apply move_still; assumption.
Qed.

Lemma mover_shifts_horizontally_witness :
  toScreen (move (Mover.mk 0 1) 1 (PolarCoordinates.mk 0 0)) =
  (fst (toScreen (PolarCoordinates.mk 0 0)) + 1, snd (toScreen (PolarCoordinates.mk 0 0))).
Proof.
  destruct (mover_shifts_horizontally (Mover.mk 0 1) 1 (PolarCoordinates.mk 0 0)
              ltac:(lia) ltac:(cbn; lia)) as [Hm _].
  apply Hm. cbn. lia.
Defined.

(** Enemy advance (lines 361-363), tick after tick: an enemy spawned with
    age 0 has, after [n] advances, age [n], and its screen point has moved
    [max 0 (n - delay)] steps of [delta] horizontally, at the same height
    (no wrap-around: [n] and the delay below [2^62]). *)
Theorem enemy_drift (e : Enemy.t) (n : nat) :
  Enemy.ticks e = 0%Z ->
  (0 <= Mover.delay (Enemy.mover e) < 2 ^ 62)%Z ->
  (Z.of_nat n < 2 ^ 62)%Z ->
  Enemy.ticks (Nat.iter n advanceEnemy e) = Z.of_nat n /\
  toScreen (Enemy.pos (Nat.iter n advanceEnemy e)) =
  (fst (toScreen (Enemy.pos e)) +
     IZR (Z.max 0 (Z.of_nat n - Mover.delay (Enemy.mover e))) *
     Mover.delta (Enemy.mover e),
   snd (toScreen (Enemy.pos e))).
Proof.
  intros H0 Hd. induction n as [| n IH]; intros Hn.
  - change (Nat.iter 0 advanceEnemy e) with e. split; [exact H0 |].
    replace (Z.max 0 (Z.of_nat 0 - Mover.delay (Enemy.mover e))) with 0%Z by lia.
    destruct (toScreen (Enemy.pos e)) as [x y]. cbn [fst snd]. f_equal. ring.
  - destruct IH as [Ht Hp]; [lia |].
    change (Nat.iter (S n) advanceEnemy e)
      with (advanceEnemy (Nat.iter n advanceEnemy e)).
    pose proof (iter_advanceEnemy_mover e n) as Hm.
    set (ei := Nat.iter n advanceEnemy e) in *.
    unfold advanceEnemy. cbv zeta. cbn [Enemy.ticks Enemy.pos].
    assert (Hw : wrapU64 (Enemy.ticks ei + 1) = Z.of_nat (S n)).
    { rewrite Ht. unfold wrapU64. rewrite Z.mod_small; lia. }
    rewrite Hw. split; [reflexivity |].
    rewrite move_screen by (rewrite ?Hm; lia).
    rewrite Hm, Hp. cbn [fst snd].
    destruct (Z.ltb_spec (Mover.delay (Enemy.mover e)) (Z.of_nat (S n))).
    + replace (Z.max 0 (Z.of_nat (S n) - Mover.delay (Enemy.mover e)))
        with (Z.max 0 (Z.of_nat n - Mover.delay (Enemy.mover e)) + 1)%Z by lia.
      rewrite plus_IZR. f_equal. ring.
    + replace (Z.max 0 (Z.of_nat (S n) - Mover.delay (Enemy.mover e)))
        with (Z.max 0 (Z.of_nat n - Mover.delay (Enemy.mover e))) by lia.
      reflexivity.
Qed.

Lemma enemy_drift_witness :
  Enemy.ticks (Nat.iter 3 advanceEnemy enemyAtCenter) = 3%Z /\
  toScreen (Enemy.pos (Nat.iter 3 advanceEnemy enemyAtCenter)) =
  (fst (toScreen (Enemy.pos enemyAtCenter)) + IZR (Z.max 0 (3 - 0)) * 1,
   snd (toScreen (Enemy.pos enemyAtCenter))).
Proof.
  exact (enemy_drift enemyAtCenter 3 eq_refl ltac:(cbn; lia) ltac:(cbn; lia)).
Defined.

(** The spawn height loop (lines 279-285): when [Float64] draws from
    [[0, 1)], as [math/rand] does, every height the loop accepts lies in
    [[110, 440)] and more than 30 away from the centre line [circleY]. *)
Theorem spawn_y_band {S : Type} `{Rand S} (s : S) (y : R) (s' : S) :
  (forall s0, 0 <= fst (Float64 s0) < 1) -> sampleY s y s' ->
  110 <= y < 440 /\ 30 < Rabs (y - circleY).
Proof. exact (sampleY_range s y s'). Qed.

Lemma spawn_y_band_witness :
  110 <= yOfDraw 0 < 440 /\ 30 < Rabs (yOfDraw 0 - circleY).
Proof.
  apply (@spawn_y_band nat counterRand 0%nat (yOfDraw 0) 1%nat).
  - intros s0. cbn. lra.
  - apply (@sampleY_accept nat counterRand 0%nat 0 1%nat eq_refl).
    unfold yOfDraw, circleY, screenHeight.
    rewrite Rabs_left by lra. lra.
Defined.

(** A spawn (lines 275-311), and what the rest of its tick does to the
    group (lines 313-378): the group starts just outside the screen and
    heads for its centre.  Every coin is placed at the spawn point, and,
    unless it is under the bob, is in the game after the tick, aged 1 and
    not yet moved (its delay is 20 or more).  If the tick ends in Playing
    (no enemy hit the bob, so the enemy loop did not [break]), the new
    enemy is in the game, aged 1 and moved once by its delta, at the spawn
    height. *)
Theorem spawn_enters_field {S : Type} `{Rand S} (g g' : Game S) (i : Input)
  (ev : SpawnEvent) :
  (forall s0, 0 <= fst (Float64 s0) < 1) ->
  update g i g' (Some ev) ->
  (evX ev = -50 \/ evX ev = screenWidth + 50) /\
  0 < evDelta ev * (circleX - evX ev) /\
  (forall c, In c (evCoins ev) ->
     toScreen (Coin.pos c) = (evX ev, evY ev) /\
     (collides (pendulumX g') (pendulumRotation g') (Coin.pos c) (Coin.r c) = false ->
      In (Coin.mk 1 (Coin.pos c) (Coin.mover c) (Coin.r c) false) (coins g'))) /\
  (mode g' = GameModePlaying ->
   In (advanceEnemy (evEnemy ev)) (enemies g') /\
   toScreen (Enemy.pos (advanceEnemy (evEnemy ev))) = (evX ev + evDelta ev, evY ev)).
Proof.
  intros HF Hu.
  inversion Hu as [| g0 i0 g2 ev0 Hm Hs |]; subst.
  inversion Hs as [| gp n s1 m s2 y s3 Hn Hr Hm2 Hy]; subst.
  destruct (sampleY_range _ _ _ HF Hy) as [Hyr _].
  set (gp := physicsPhase (incTicks g) i) in *.
  set (G2 := addSpawn gp s3 (mkSpawn (ticksFromModeStart gp) (spawnX m) y)).
  assert (Hpx : pendulumX (filterPhase (collisionPhase G2)) = pendulumX G2)
    by (cbn [filterPhase pendulumX]; apply collisionPhase_pendulum).
  assert (Hrot : pendulumRotation (filterPhase (collisionPhase G2)) = pendulumRotation G2)
    by (cbn [filterPhase pendulumRotation]; apply collisionPhase_rest).
  rewrite Hpx, Hrot.
  destruct (collisionPhase_parts G2) as (Hco & _ & _ & Hen & Hmc).
  cbn [filterPhase coins enemies mode].
  set (x := spawnX m).
  assert (Hx : (x = -50 /\ moverDeltaOf x = 1) \/
               (x = screenWidth + 50 /\ moverDeltaOf x = -1)).
  { unfold x, spawnX, moverDeltaOf, Rltb, screenWidth.
    destruct (Z.eqb _ 0); [left | right];
      (split; [reflexivity |]);
      destruct (Rlt_dec _ 0); cbv iota; lra || reflexivity. }
  assert (He : toScreen (move (Mover.mk 0 (moverDeltaOf x)) (wrapU64 (0 + 1))
                          (fromScreen x y)) = (x + moverDeltaOf x, y)).
  { change (wrapU64 (0 + 1)) with 1%Z.
    rewrite move_screen by (cbn; lia). cbn [Mover.delay Mover.delta].
    rewrite screen_roundtrip. reflexivity. }
  unfold mkSpawn. cbv zeta. cbn [evX evY evDelta evEnemy evCoins].
  split; [destruct Hx as [[-> _] | [-> _]]; [left | right]; reflexivity |].
  split; [unfold circleX, screenWidth in *; destruct Hx as [[-> ->] | [-> ->]]; lra |].
  split.
  - intros c Hc. unfold spawnCoins in Hc.
    apply in_map_iff in Hc as (k & <- & Hk). apply in_seq in Hk.
    cbn [Coin.pos Coin.r Coin.mover Coin.ticks].
    split; [apply screen_roundtrip |].
    intros Hcol. apply filter_In. split.
    + rewrite Hco, coinLoop_map. apply in_map_iff.
      exists (Coin.mk 0 (fromScreen x y) (Mover.mk ((Z.of_nat k + 1) * 20) (moverDeltaOf x))
                (if Nat.ltb k 3 then 10 else 7) false).
      split.
      * cbn [Coin.ticks Coin.pos Coin.mover Coin.r Coin.hit]. rewrite Hcol.
        change (wrapU64 (0 + 1)) with 1%Z.
        rewrite move_still by (cbn [Mover.delay]; lia). reflexivity.
      * unfold G2, addSpawn. cbn [coins]. apply in_or_app. right.
        unfold mkSpawn. cbv zeta. cbn [evCoins]. unfold spawnCoins.
        apply in_map_iff. exists k. split; [reflexivity | apply in_seq; lia].
    + unfold keepCoin. cbn [Coin.pos Coin.hit negb]. rewrite andb_true_r.
      apply onScreen_iff. rewrite screen_roundtrip. cbn [fst snd].
      unfold screenWidth, screenHeight in *. destruct Hx as [[-> _] | [-> _]]; lra.
  - intros Hmo. rewrite Hmc in Hmo.
    match type of Hmo with
    | context [if ?b then _ else _] => destruct b eqn:Eo; [discriminate Hmo |]
    end.
    unfold advanceEnemy. cbv zeta. cbn [Enemy.ticks Enemy.pos Enemy.mover Enemy.r].
    split; [| exact He].
    apply filter_In. split.
    + rewrite Hen, (enemyLoop_nohit _ _ _ Eo).
      unfold G2, addSpawn. cbn [enemies]. rewrite map_app. apply in_or_app. right.
      unfold mkSpawn. cbv zeta. cbn [evEnemy map]. left. reflexivity.
    + unfold keepEnemy. cbn [Enemy.pos]. apply onScreen_iff. rewrite He. cbn [fst snd].
      unfold screenWidth, screenHeight in *. destruct Hx as [[-> ->] | [-> ->]]; lra.
Qed.

Lemma spawn_enters_field_witness :
  let g := playingGame 0 0 [] [] in
  let gp := physicsPhase (incTicks g) noInput in
  let ev := mkSpawn 480 (spawnX 1) (yOfDraw 0) in
  let g' := filterPhase (collisionPhase (addSpawn gp 3%nat ev)) in
  mode g' = GameModePlaying /\
  In (advanceEnemy (evEnemy ev)) (enemies g') /\
  (forall c, In c (evCoins ev) ->
     In (Coin.mk 1 (Coin.pos c) (Coin.mover c) (Coin.r c) false) (coins g')).
Proof.
  intros g gp ev g'.
  assert (HF : forall s0 : nat, 0 <= fst (Float64 s0) < 1) by (intros s0; cbn; lra).
  assert (Hu : update g noInput g' (Some ev)).
  { apply update_playing; [reflexivity |].
    refine (spawnStep_some gp 0%Z 1%nat 1%Z 2%nat (yOfDraw 0) 3%nat
              eq_refl eq_refl eq_refl _).
    apply (@sampleY_accept nat counterRand 2%nat 0 3%nat eq_refl).
    unfold yOfDraw, circleY, screenHeight. rewrite Rabs_left by lra. lra. }
  set (G2 := addSpawn gp 3%nat ev) in *.
  assert (Hpx : pendulumX g' = pendulumAmplitude).
  { unfold g'. cbn [filterPhase pendulumX]. rewrite (proj1 (collisionPhase_pendulum _)).
    reflexivity. }
  assert (Hrot : pendulumRotation g' = 0).
  { unfold g'. cbn [filterPhase pendulumRotation]. rewrite (proj1 (collisionPhase_rest _)).
    reflexivity. }
  assert (Hfar : forall er, 0 <= er <= 10 ->
            collides pendulumAmplitude 0 (fromScreen (spawnX 1) (yOfDraw 0)) er = false).
  { intros er Her. apply collides_far_x. rewrite cos_0.
    change (spawnX 1) with (screenWidth + 50).
    unfold circleX, pendulumR, pendulumAmplitude, screenWidth. simpl. nra. }
  assert (Hmo : mode g' = GameModePlaying).
  { unfold g'. cbn [filterPhase mode].
    destruct (collisionPhase_parts G2) as (_ & _ & _ & _ & Hmc). rewrite Hmc.
    change (pendulumX G2) with pendulumAmplitude.
    change (pendulumRotation G2) with 0.
    change (enemies G2) with
      [Enemy.mk 0 (fromScreen (spawnX 1) (yOfDraw 0)) (Mover.mk 0 (moverDeltaOf (spawnX 1))) 10].
    cbn [enemyLoop Enemy.pos Enemy.r]. rewrite Hfar by lra. reflexivity. }
  destruct (spawn_enters_field g g' noInput ev HF Hu) as (_ & _ & Hc & He).
  split; [exact Hmo |]. split; [exact (proj1 (He Hmo)) |].
  intros c Hin. apply (Hc c Hin). rewrite Hpx, Hrot.
  unfold ev, mkSpawn in Hin. cbv zeta in Hin. cbn [evCoins] in Hin.
  unfold spawnCoins in Hin. apply in_map_iff in Hin as (k & <- & _).
  cbn [Coin.pos Coin.r]. apply Hfar. destruct (Nat.ltb k 3); lra.
Defined.

(** The spawn rate (lines 268-273): the divisor of the spawn test is
    between 40 and 180, never 0 (so [%] cannot fail), and it never grows as
    the play goes on: later ticks spawn at least as often. *)
Theorem spawn_rate_schedule (t1 t2 : Z) :
  (t1 <= t2)%Z ->
  (40 <= enemyAppearanceRate t2 /\ enemyAppearanceRate t2 <= enemyAppearanceRate t1 /\
   enemyAppearanceRate t1 <= 180)%Z.
Proof.
  intros Hle. unfold enemyAppearanceRate.
  destruct (Z.ltb_spec t1 1800); destruct (Z.ltb_spec t2 1800);
  destruct (Z.ltb_spec t1 2400); destruct (Z.ltb_spec t2 2400);
  destruct (Z.ltb_spec t1 3000); destruct (Z.ltb_spec t2 3000);
  destruct (Z.ltb_spec t1 3600); destruct (Z.ltb_spec t2 3600); lia.
Qed.

Lemma spawn_rate_schedule_witness :
  (40 <= enemyAppearanceRate 4000 /\ enemyAppearanceRate 4000 <= enemyAppearanceRate 0 /\
   enemyAppearanceRate 0 <= 180)%Z.
Proof. apply (spawn_rate_schedule 0 4000). lia. Defined.

(** The earth rotation (lines 252-257, reset by [initialize]): in every
    game reached from [main], [pendulumRotation] lies in [[0, 2 pi]]. *)
Theorem rotation_bounded {S : Type} `{Rand S} (g : Game S) :
  reachable g -> 0 <= pendulumRotation g <= PI * 2.
Proof. exact (rotation_reachable g). Qed.

Lemma rotation_bounded_witness :
  reachable (playedTwice 5) /\ pendulumRotation (playedTwice 5) = PI / 800 /\
  0 <= pendulumRotation (playedTwice 5) <= PI * 2.
Proof.
  assert (Hr : reachable (playedTwice 5)).
  { exists 0%nat, 1%Z, 5%Z, [touchIn; touchIn], [None; None]. apply playedTwice_run. }
  split; [exact Hr |]. split; [| exact (rotation_bounded _ Hr)].
  transitivity (rotate true 0); [reflexivity |].
  pose proof PI_RGT_0. unfold rotate, Rltb. cbv zeta.
  destruct (Rlt_dec (PI * 2) (0 + PI / 800)); cbv iota; lra.
Defined.

(** The pendulum (lines 222-223, 259-266, and [initialize]): in every game
    reached from [main], either the game is on the title screen with the
    pendulum at rest, or the quantity [vx^2 + k x^2 - k x vx]
    ([k = gravity / pendulumLength]), which the Euler step keeps, has the
    value of a swing released at the amplitude 220: the pendulum neither
    gains nor loses energy between its resets.  The equality is exact in
    the real arithmetic that idealises [float64]; with rounding it holds up
    to the error accumulated since the last reset. *)
Theorem pendulum_energy_conserved {S : Type} `{Rand S} (g : Game S) :
  reachable g -> pendulumInv g.
Proof. exact (pendulumInv_reachable g). Qed.

Lemma pendulum_energy_conserved_witness :
  reachable (playedTwice 5) /\ mode (playedTwice 5) = GameModePlaying /\
  pendulumVx (playedTwice 5) <> 0 /\ pendulumInv (playedTwice 5).
Proof.
  assert (Hr : reachable (playedTwice 5)).
  { exists 0%nat, 1%Z, 5%Z, [touchIn; touchIn], [None; None]. apply playedTwice_run. }
  split; [exact Hr |]. split; [reflexivity |].
  split; [| exact (pendulum_energy_conserved _ Hr)].
  change (pendulumVx (playedTwice 5))
    with (0 + - gravity / pendulumLength * pendulumAmplitude).
  unfold gravity, pendulumLength, pendulumAmplitude. lra.
Defined.

(** The swing stays within the amplitude, up to a margin: once a play has
    started, [pendulumX] stays within [[-221, 221]] in every reachable
    game. *)
Theorem pendulum_swing_bound {S : Type} `{Rand S} (g : Game S) :
  reachable g -> mode g <> GameModeTitle -> -221 <= pendulumX g <= 221.
Proof.
  intros Hr Hm.
  destruct (pendulumInv_reachable g Hr) as [[Ht _] | [_ HE]]; [contradiction |].
  unfold pendulumEnergy, pendulumAmplitude in HE.
  set (x := pendulumX g) in *. set (v := pendulumVx g) in *.
  assert (Hk : 0 < pendulumK < 1 / 1000)
    by (unfold pendulumK, gravity, pendulumLength; split; lra).
  pose proof (Rle_0_sqr (v - pendulumK * x / 2)) as Hsq. unfold Rsqr in Hsq.
  assert (H1 : x * x * (1 - pendulumK / 4) <= 48400).
  { apply (Rmult_le_reg_l pendulumK); [lra |]. nra. }
  assert (Hx2 : 0 <= x * x) by nra.
  assert (H2 : x * x <= 48413) by nra.
  nra.
Qed.

Lemma pendulum_swing_bound_witness :
  -221 <= pendulumX (titleStep (incTicks (start 0%nat 1 5)) (mkInput true false 0))
       <= 221.
Proof.
  apply pendulum_swing_bound.
  - exists 0%nat, 1%Z, 5%Z, [mkInput true false 0], [None].
    eapply run_cons.
    + apply update_title. exact (proj1 (start_fields 0%nat 1 5)).
    + apply run_nil.
  - cbn [titleStep justTouched setNextMode mode]. discriminate.
Defined.

(** [initialize] (lines 594-599): when [Float64] draws from [[0, 1)], the
    sky has exactly 500 stars, each centred inside the square image of side
    [skyImgLength] and of radius at least 0.5. *)
Theorem sky_stars_in_image {S : Type} `{Rand S} (g : Game S) (clock : Z) :
  (forall s0, 0 <= fst (Float64 s0) < 1) ->
  length (skyImg (initialize g clock)) = 500%nat /\
  Forall (fun st : Star => let '(x, y, r) := st in
            0 <= x < skyImgLength /\ 0 <= y < skyImgLength /\ 1 / 2 <= r)
    (skyImg (initialize g clock)).
Proof.
  intros HF. unfold initialize.
  pose proof (drawSky_stars 500 HF (newRand (seedOf (fixedRandomSeed g) clock))) as Hs.
  destruct (drawSky 500 _) as [sky s]. exact Hs.
Qed.

Lemma sky_stars_in_image_witness :
  length (skyImg (initialize (playingGame 0 0 [] []) 5)) = 500%nat.
Proof.
  apply (sky_stars_in_image (playingGame 0 0 [] []) 5). intros s0. cbn. lra.
Defined.

(** The modes of [Game.Update] (lines 213-388, [setNextMode] 558-561): a
    tick either stays in its mode, its counter incremented, or takes one of
    three edges, with the counter reset to 0: Title to Playing on a touch,
    Playing to GameOver, and GameOver to Title on a touch after more than
    60 ticks. *)
Theorem mode_transitions {S : Type} `{Rand S} (g g' : Game S) (i : Input)
  (ev : option SpawnEvent) :
  update g i g' ev ->
  (mode g' = mode g /\ ticksFromModeStart g' = wrapU64 (ticksFromModeStart g + 1)) \/
  (ticksFromModeStart g' = 0%Z /\
   ((mode g = GameModeTitle /\ mode g' = GameModePlaying /\ justTouched i = true) \/
    (mode g = GameModePlaying /\ mode g' = GameModeGameOver) \/
    (mode g = GameModeGameOver /\ mode g' = GameModeTitle /\ justTouched i = true /\
     (60 < wrapU64 (ticksFromModeStart g + 1))%Z))).
Proof.
  intros Hu.
  inversion Hu as [g0 i0 Hm | g0 i0 g2 ev0 Hm Hs | g0 i0 Hm]; subst.
  - unfold titleStep. destruct (justTouched i) eqn:Et.
    + right. split; [reflexivity |]. left. auto.
    + left. split; reflexivity.
  - destruct (spawnStep_fields _ _ _ Hs) as (_ & _ & _ & _ & _ & Hmo2 & _).
    pose proof (spawnStep_ticks _ _ _ Hs) as Ht2.
    destruct (collisionPhase_parts g2) as (_ & _ & _ & _ & Hmc).
    destruct (collisionPhase_rest g2) as [_ Htc].
    destruct (physicsPhase_fields (incTicks g) i) as (_ & _ & _ & Hmp & Htp & _).
    cbn [filterPhase mode ticksFromModeStart]. rewrite Hmc, Htc, Hmo2, Ht2, Hmp, Htp.
    cbn [incTicks mode ticksFromModeStart].
    match goal with |- context [if ?b then _ else _] => destruct b end.
    + right. split; [reflexivity |]. right. left. auto.
    + left. split; reflexivity.
  - unfold gameOverStep.
    destruct (Z.ltb 60 (ticksFromModeStart (incTicks g)) && justTouched i) eqn:E.
    + right. apply andb_true_iff in E as [E1 E2]. apply Z.ltb_lt in E1.
      unfold initialize. destruct (drawSky _ _).
      split; [reflexivity |]. right. right. auto.
    + left. split; reflexivity.
Qed.

Lemma mode_transitions_witness :
  exists g', update (playingGame 1 0 [] []) noInput g' None /\
  ((mode g' = GameModePlaying /\ ticksFromModeStart g' = wrapU64 (479 + 1)) \/
   (ticksFromModeStart g' = 0%Z /\
    ((GameModePlaying = GameModeTitle /\ mode g' = GameModePlaying /\ false = true) \/
     (GameModePlaying = GameModePlaying /\ mode g' = GameModeGameOver) \/
     (GameModePlaying = GameModeGameOver /\ mode g' = GameModeTitle /\ false = true /\
      (60 < wrapU64 (479 + 1))%Z)))).
Proof.
  eexists. split; [apply playingGame_update |].
  exact (mode_transitions _ _ _ _ (playingGame_update 0 [] [])).
Defined.

(** [Game.drawGuide] and [Game.drawPendulum] (lines 451-485): the guide
    line is a diameter of the squashed circle, its two ends symmetric about
    the centre [(circleX, circleY)], and the bob is drawn on it, at the
    fraction [pendulumX / 220] of the way from the centre to its first
    end. *)
Theorem guide_and_bob {S : Type} (g : Game S) :
  let '((x0, y0), (x1, y1)) := guideEnds g in
  (x0 + x1) / 2 = circleX /\ (y0 + y1) / 2 = circleY /\
  pendulumScreen g =
  (circleX + pendulumX g / pendulumAmplitude * (x0 - circleX),
   circleY + pendulumX g / pendulumAmplitude * (y0 - circleY)).
Proof.
  cbv beta iota zeta delta [guideEnds toScreen pendulumScreen
                            PolarCoordinates.r PolarCoordinates.theta].
  rewrite neg_cos, neg_sin. unfold pendulumAmplitude.
  split; [field | split; [field | f_equal; field]].
Qed.



(** The coin and enemy loops (lines 313-364): they drop no entity (the
    filter does that), the coin loop appends one effect per coin under the
    bob, in coin order, at that coin's position and with its gain, and it
    adds to the score exactly the sum of those gains, with [int]
    wrap-around. *)
Theorem collision_loops_account (px rot : R) (cs : list Coin.t) (es : list Enemy.t)
  (sc : Z) (efs : list CoinHitEffect.t) :
  (- 2 ^ 63 <= sc < 2 ^ 63)%Z ->
  length (fst (fst (coinLoop px rot cs sc efs))) = length cs /\
  length (fst (enemyLoop px rot es)) = length es /\
  snd (coinLoop px rot cs sc efs) =
    efs ++ map hitEffect
             (filter (fun c => collides px rot (Coin.pos c) (Coin.r c)) cs) /\
  snd (fst (coinLoop px rot cs sc efs)) =
    wrapI64 (sc + fold_right Z.add 0%Z
                    (map CoinHitEffect.gain
                       (map hitEffect
                          (filter (fun c => collides px rot (Coin.pos c) (Coin.r c)) cs)))).
Proof.
  intros Hr. destruct (coinLoop_account px rot cs sc efs) as (Hl & He & Hs).
  split; [exact Hl |]. split; [apply enemyLoop_length |]. split; [exact He |].
  rewrite map_map. exact (Hs Hr).
Qed.

Lemma collision_loops_account_witness :
  snd (fst (coinLoop 0 0 [coinAtCenter] 0 [])) =
    wrapI64 (0 + fold_right Z.add 0%Z
                   (map CoinHitEffect.gain
                      (map hitEffect
                         (filter (fun c => collides 0 0 (Coin.pos c) (Coin.r c))
                            [coinAtCenter])))).
Proof.
  destruct (collision_loops_account 0 0 [coinAtCenter] [] 0 [] ltac:(lia))
    as (_ & _ & _ & Hs).
  exact Hs.
Defined.
